(** * MicroHH: forcing kernels and pressure solvers

  A shallow embedding of [src/force.cxx], [src/pres.cxx] and the column
  set-up of [src/pres_4.cxx], with the properties of the kernels that
  the specification states.

  C++ [int] values are integers of [Z]; the grids considered are far
  below the range where [int] arithmetic overflows.  A [double*] is a
  list of numbers read and written through an integer index.  The
  arithmetic of [double] is an interface, [Arith], with two instances:
  the real numbers, on which the algebraic identities are proved, and
  the binary64 numbers of the machine, on which the kernels are run. *)

From Stdlib Require Import ZArith List Lia Reals Lra.
From Stdlib Require Import Floats.PrimFloat Numbers.Cyclic.Int63.Uint63.
From stdpp Require Import base list list_numbers gmap strings.

Local Open Scope Z_scope.

(** ** Arithmetic of [double] *)

Class Arith (D : Type) := {
dofZ : Z -> D;          (* a literal, or an [int] converted to [double] *)
dadd : D -> D -> D;
dsub : D -> D -> D;
dmul : D -> D -> D;
ddiv : D -> D -> D;
dltb : D -> D -> bool   (* [x < y] *)
}.

Declare Scope dbl_scope.
Delimit Scope dbl_scope with dbl.
Infix "+" := dadd : dbl_scope.
Infix "-" := dsub : dbl_scope.
Infix "*" := dmul : dbl_scope.
Infix "/" := ddiv : dbl_scope.

(** Exact arithmetic. *)
#[export] Instance RArith : Arith R := {
dofZ := IZR;
dadd := Rplus;
dsub := Rminus;
dmul := Rmult;
ddiv := Rdiv;
dltb := fun x y => if Rlt_dec x y then true else false
}.

(** IEEE 754 binary64, as computed by the machine. *)
Definition float_of_Z (z : Z) : float :=
match z with
| Z0 => PrimFloat.zero
| Zpos _ => PrimFloat.of_uint63 (Uint63.of_Z z)
| Zneg p => PrimFloat.opp (PrimFloat.of_uint63 (Uint63.of_Z (Zpos p)))
end.

#[export] Instance FArith : Arith float := {
dofZ := float_of_Z;
dadd := PrimFloat.add;
dsub := PrimFloat.sub;
dmul := PrimFloat.mul;
ddiv := PrimFloat.div;
dltb := PrimFloat.ltb
}.

(** ** Arrays and loops *)

Section Arrays.
Context {D : Type} `{Arith D}.

(** [a[i]].  The source never reads or writes outside an allocation; the
    model returns [0.] for such a read and ignores such a write. *)
Definition rd (a : list D) (i : Z) : D :=
  if i <? 0 then dofZ 0 else default (dofZ 0) (a !! Z.to_nat i).

Definition wr (a : list D) (i : Z) (v : D) : list D :=
  if i <? 0 then a else <[Z.to_nat i := v]> a.

(** [for (int k = lo; k < hi; ++k) body] on a state [St]. *)
Definition for_ {St : Type} (lo hi : Z) (body : Z -> St -> St) (s : St) : St :=
  foldl (fun s k => body k s) s (seqZ lo (hi - lo)).

(** [for (k = hi; k >= lo; --k) body]. *)
Definition for_down {St : Type} (hi lo : Z) (body : Z -> St -> St) (s : St) : St :=
  foldl (fun s k => body k s) s (reverse (seqZ lo (hi + 1 - lo))).

End Arrays.

Arguments rd {D _} a i%_Z.
Arguments wr {D} a i%_Z v.

(** ** The grid *)

(** Modelled from the spec: the class [Grid], which owns the geometry and
    is declared in [grid.h], not among the sources.  The record has the
    members that the kernels read, under the names the kernels use;
    [getSum] is the sum of a value over the processes. *)
Record Grid {D : Type} := {
  itot : Z; jtot : Z; ktot : Z;
  imax : Z; jmax : Z; kmax : Z;
  iblock : Z; jblock : Z;
  igc : Z; jgc : Z; kgc : Z;
  icells : Z; jcells : Z; kcells : Z; ijcells : Z; ncells : Z;
  istart : Z; iend : Z; jstart : Z; jend : Z; kstart : Z; kend : Z;
  dx : D; dy : D; zsize : D;
  utrans : D; vtrans : D;
  dz : list D; dzi : list D; dzhi : list D;
  swspatialorder : string;
  getSum : D -> D
}.
Arguments Grid D : clear implicits.

(** The layout of a field: the interior lies inside the allocation of
    [icells * jcells * kcells] cells, ghost cells included. *)
Definition grid_layout {D : Type} (g : Grid D) : Prop :=
  0 <= istart g /\ iend g <= icells g /\
  0 <= jstart g /\ jend g <= jcells g /\
  0 <= kstart g /\ kend g <= kcells g /\
  ijcells g = icells g * jcells g /\
  ncells g = ijcells g * kcells g.

(** ** The second-order pressure solver, [src/pres.cxx] *)

Module Pres2.
Section Pres2.
Context {D : Type} `{Arith D}.
Local Open Scope dbl_scope.

(** The part of [cpres::pres_2nd_init] that fills the sub- and the
    super-diagonal [a] and [c], given as allocated.  The wave numbers
    [bmati] and [bmatj], which the function computes with [std::cos], are
    inputs of the model. *)
Definition pres_2nd_init (g : Grid D) (a c : list D) : list D * list D :=
  let kgc := kgc g in
  for_ 0 (ktot g) (fun k '(a, c) =>
      (wr a k (rd (dz g) (k + kgc) * rd (dzhi g) (k + kgc)),
       wr c k (rd (dz g) (k + kgc) * rd (dzhi g) (k + kgc + 1))))
    (a, c).

(** [cpres::pres_2nd_in]: the right-hand side of the Poisson equation. *)
Definition pres_2nd_in (g : Grid D) (p u v w ut vt wt dzi : list D) (dt : D) : list D :=
  let ii := 1%Z in
  let jj := icells g in
  let kk := (icells g * jcells g)%Z in
  let dxi := dofZ 1 / dx g in
  let dyi := dofZ 1 / dy g in
  for_ (kstart g) (kend g) (fun k =>
    for_ (jstart g) (jend g) (fun j =>
      for_ (istart g) (iend g) (fun i p =>
        let ijk := (i + j * jj + k * kk)%Z in
        wr p ijk
          (((rd ut (ijk + ii) + rd u (ijk + ii) / dt) - (rd ut ijk + rd u ijk / dt)) * dxi
           + ((rd vt (ijk + jj) + rd v (ijk + jj) / dt) - (rd vt ijk + rd v ijk / dt)) * dyi
           + ((rd wt (ijk + kk) + rd w (ijk + kk) / dt) - (rd wt ijk + rd w ijk / dt))
             * rd dzi k)))) p.

(** The system that [cpres::pres_2nd_solve] hands to [tdma] for the wave
    number pair of column [(i, j)]: the diagonal [b] and the right-hand
    side [xin], after the substitution of the boundary conditions.  [p]
    holds the transformed right-hand side. *)
Definition column_system (g : Grid D) (a c bmati bmatj dz p b xin : list D)
    (i j : Z) : list D * list D :=
  let ktot := ktot g in
  let igc := igc g in
  let jgc := jgc g in
  let kgc := kgc g in
  let jj := icells g in
  let kk := (icells g * jcells g)%Z in
  let iindex := i in
  let jindex := j in
  let '(b, xin) :=
    for_ 0 ktot (fun k '(b, xin) =>
        let ijk := (i + igc + (j + jgc) * jj + (k + kgc) * kk)%Z in
        (wr b k (rd dz (k + kgc) * rd dz (k + kgc) * (rd bmati iindex + rd bmatj jindex)
                 - (rd a k + rd c k)),
         wr xin k (rd dz (k + kgc) * rd dz (k + kgc) * rd p ijk)))
      (b, xin) in
  let b := wr b 0 (rd b 0 + rd a 0) in
  let b :=
    if (iindex =? 0)%Z && (jindex =? 0)%Z then
      wr b (ktot - 1) (rd b (ktot - 1) - rd c (ktot - 1))
    else
      wr b (ktot - 1) (rd b (ktot - 1) + rd c (ktot - 1)) in
  (b, xin).

(** The arrays that the column loop of [cpres::pres_2nd_solve] changes. *)
Record columns := {
  c_p : list D; c_b : list D; c_xin : list D; c_xout : list D; c_d : list D
}.

(** [cpres::tdma]: the tridiagonal solver.  The arrays are [restrict]
    pointers, so each is a value of its own; the result is the pair of
    [xout] and the workspace [gam] at return.  [tdma_state] has the three
    variables that the forward sweep changes. *)
Record tdma_state := { t_tmp : D; t_xout : list D; t_gam : list D }.

Definition tdma (a b c xin xout gam : list D) (size : Z) : list D * list D :=
  let tmp := rd b 0 in
  let xout := wr xout 0 (rd xin 0 / tmp) in
  let s := for_ 1 size (fun k s =>
             let gam := wr (t_gam s) k (rd c (k - 1) / t_tmp s) in
             let tmp := rd b k - rd a k * rd gam k in
             let xout := wr (t_xout s) k
                           ((rd xin k - rd a k * rd (t_xout s) (k - 1)) / tmp) in
             {| t_tmp := tmp; t_xout := xout; t_gam := gam |})
           {| t_tmp := tmp; t_xout := xout; t_gam := gam |} in
  let xout := for_down (size - 2) 0 (fun k xout =>
                wr xout k (rd xout k - rd (t_gam s) (k + 1) * rd xout (k + 1)))
              (t_xout s) in
  (xout, t_gam s).

(** The column loop of [cpres::pres_2nd_solve], between the forward and
    the backward transforms, which are those of the FFTW library: every
    column is set up, solved and stored back into [p]. *)
Definition solve_columns (g : Grid D) (a c bmati bmatj dz : list D) (s : columns)
    : columns :=
  let jj := icells g in
  let kk := (icells g * jcells g)%Z in
  for_ 0 (jmax g) (fun j =>
    for_ 0 (imax g) (fun i s =>
      let sys := column_system g a c bmati bmatj dz (c_p s) (c_b s) (c_xin s) i j in
      let sol := tdma a sys.1 c sys.2 (c_xout s) (c_d s) (ktot g) in
      let p :=
        for_ 0 (ktot g) (fun k p =>
            let ijk := (i + igc g + (j + jgc g) * jj + (k + kgc g) * kk)%Z in
            wr p ijk (rd sol.1 k))
          (c_p s) in
      {| c_p := p; c_b := sys.1; c_xin := sys.2; c_xout := sol.1; c_d := sol.2 |})) s.

(** [cpres::pres_2nd_out]: the projection, on the three tendencies. *)
Definition pres_2nd_out (g : Grid D) (ut vt wt p dzhi : list D)
    : list D * list D * list D :=
  let ii := 1%Z in
  let jj := icells g in
  let kk := (icells g * jcells g)%Z in
  let dxi := dofZ 1 / dx g in
  let dyi := dofZ 1 / dy g in
  for_ (kstart g) (kend g) (fun k =>
    for_ (jstart g) (jend g) (fun j =>
      for_ (istart g) (iend g) (fun i '(ut, vt, wt) =>
        let ijk := (i + j * jj + k * kk)%Z in
        (wr ut ijk (rd ut ijk - (rd p ijk - rd p (ijk - ii)) * dxi),
         wr vt ijk (rd vt ijk - (rd p ijk - rd p (ijk - jj)) * dyi),
         wr wt ijk (rd wt ijk - (rd p ijk - rd p (ijk - kk)) * rd dzhi k)))))
    (ut, vt, wt).

End Pres2.
End Pres2.

(** ** The fields *)

Module Fields.

(** Modelled from the spec: the class [Field3d] of [fields.h], not among
    the sources: a field with its ghost cells and its horizontal mean per
    level. *)
Record Field3d {D : Type} := {
  data : list D;
  datamean : list D
}.
Arguments Field3d D : clear implicits.

Definition with_data {D : Type} (f : Field3d D) (d : list D) : Field3d D :=
  {| data := d; datamean := datamean f |}.

(** Modelled from the spec: the class [Fields] of [fields.h], not among
    the sources, with the members that [Force] and the pressure solver
    use: the velocity components and their tendencies, the map [sp] of the
    prognostic scalars and the map [st] of the tendencies of the scalars. *)
Record t {D : Type} := {
  u : Field3d D; v : Field3d D; w : Field3d D;
  ut : Field3d D; vt : Field3d D; wt : Field3d D;
  sp : gmap string (Field3d D);
  st : gmap string (Field3d D)
}.
Arguments t D : clear implicits.

Definition with_ut {D : Type} (f : t D) (x : list D) : t D :=
  {| u := u f; v := v f; w := w f;
     ut := with_data (ut f) x; vt := vt f; wt := wt f;
     sp := sp f; st := st f |}.

Definition with_vt {D : Type} (f : t D) (x : list D) : t D :=
  {| u := u f; v := v f; w := w f;
     ut := ut f; vt := with_data (vt f) x; wt := wt f;
     sp := sp f; st := st f |}.

Definition with_st {D : Type} (f : t D) (m : gmap string (Field3d D)) : t D :=
  {| u := u f; v := v f; w := w f;
     ut := ut f; vt := vt f; wt := wt f;
     sp := sp f; st := m |}.

End Fields.

(** ** The forcings, [src/force.cxx] *)

Module Force.

(** The weights of the fourth-order interpolation, declared in [fd.h],
    which is not among the sources: parameters of the model. *)
Record O4 {D : Type} := { ci0 : D; ci1 : D; ci2 : D; ci3 : D }.
Arguments O4 D : clear implicits.

(** The members of the class [Force]. *)
Record t {D : Type} := {
  swlspres : string; swls : string; swwls : string; swtimedep : string;
  uflux : D; fc : D;
  ug : list D; vg : list D; wls : list D;
  lslist : list string;
  timedeplist : list string;
  lsprofs : gmap string (list D);
  timedepdata : gmap string (list D);
  timedeptime : list D
}.
Arguments t D : clear implicits.

Definition with_lsprofs {D : Type} (fo : t D) (m : gmap string (list D)) : t D :=
  {| swlspres := swlspres fo; swls := swls fo; swwls := swwls fo;
     swtimedep := swtimedep fo; uflux := uflux fo; fc := fc fo;
     ug := ug fo; vg := vg fo; wls := wls fo;
     lslist := lslist fo; timedeplist := timedeplist fo;
     lsprofs := m; timedepdata := timedepdata fo;
     timedeptime := timedeptime fo |}.

Section Force.
Context {D : Type} `{Arith D}.
Local Open Scope dbl_scope.
Local Open Scope string_scope.

(** [Force::calcFlux]: the body force that brings the bulk velocity to
    [uflux], added to all [ncells] cells of [ut]. *)
Definition calcFlux (fo : t D) (g : Grid D) (ut u dz : list D) (dt : D) : list D :=
  let jj := icells g in
  let kk := ijcells g in
  let uavg := dofZ 0 in
  let utavg := dofZ 0 in
  let ugrid := utrans g in
  let '(uavg, utavg) :=
    for_ (kstart g) (kend g) (fun k =>
      for_ (jstart g) (jend g) (fun j =>
        for_ (istart g) (iend g) (fun i '(uavg, utavg) =>
          let ijk := (i + j * jj + k * kk)%Z in
          (uavg + rd u ijk * rd dz k, utavg + rd ut ijk * rd dz k))))
      (uavg, utavg) in
  let uavg := getSum g uavg in
  let utavg := getSum g utavg in
  let uavg := uavg / (dofZ (itot g * jtot g) * zsize g) in
  let utavg := utavg / (dofZ (itot g * jtot g) * zsize g) in
  let fbody := (uflux fo - uavg - ugrid) / dt - utavg in
  for_ 0 (ncells g) (fun n ut => wr ut n (rd ut n + fbody)) ut.

(** [Force::calcCoriolis_2nd].  The literal [0.25] is [1/4], which the
    division gives without rounding. *)
Definition calcCoriolis_2nd (fo : t D) (g : Grid D) (ut vt u v ug vg : list D)
    : list D * list D :=
  let ii := 1%Z in
  let jj := icells g in
  let kk := ijcells g in
  let ugrid := utrans g in
  let vgrid := vtrans g in
  let quarter := dofZ 1 / dofZ 4 in
  let ut :=
    for_ (kstart g) (kend g) (fun k =>
      for_ (jstart g) (jend g) (fun j =>
        for_ (istart g) (iend g) (fun i ut =>
          let ijk := (i + j * jj + k * kk)%Z in
          wr ut ijk
            (rd ut ijk
             + fc fo * (quarter * (rd v (ijk - ii) + rd v ijk + rd v (ijk - ii + jj)
                                   + rd v (ijk + jj))
                        + vgrid - rd vg k))))) ut in
  let vt :=
    for_ (kstart g) (kend g) (fun k =>
      for_ (jstart g) (jend g) (fun j =>
        for_ (istart g) (iend g) (fun i vt =>
          let ijk := (i + j * jj + k * kk)%Z in
          wr vt ijk
            (rd vt ijk
             - fc fo * (quarter * (rd u (ijk - jj) + rd u ijk + rd u (ijk + ii - jj)
                                   + rd u (ijk + ii))
                        + ugrid - rd ug k))))) vt in
  (ut, vt).

(** [Force::calcCoriolis_4th]. *)
Definition calcCoriolis_4th (fo : t D) (o4 : O4 D) (g : Grid D)
    (ut vt u v ug vg : list D) : list D * list D :=
  let ci0 := ci0 o4 in
  let ci1 := ci1 o4 in
  let ci2 := ci2 o4 in
  let ci3 := ci3 o4 in
  let ii1 := 1%Z in
  let ii2 := 2%Z in
  let jj1 := (1 * icells g)%Z in
  let jj2 := (2 * icells g)%Z in
  let kk1 := (1 * ijcells g)%Z in
  let ugrid := utrans g in
  let vgrid := vtrans g in
  let ut :=
    for_ (kstart g) (kend g) (fun k =>
      for_ (jstart g) (jend g) (fun j =>
        for_ (istart g) (iend g) (fun i ut =>
          let ijk := (i + j * jj1 + k * kk1)%Z in
          wr ut ijk
            (rd ut ijk
             + fc fo
               * ((ci0 * (ci0 * rd v (ijk - ii2 - jj1) + ci1 * rd v (ijk - ii1 - jj1)
                          + ci2 * rd v (ijk - jj1) + ci3 * rd v (ijk + ii1 - jj1))
                   + ci1 * (ci0 * rd v (ijk - ii2) + ci1 * rd v (ijk - ii1)
                            + ci2 * rd v ijk + ci3 * rd v (ijk + ii1))
                   + ci2 * (ci0 * rd v (ijk - ii2 + jj1) + ci1 * rd v (ijk - ii1 + jj1)
                            + ci2 * rd v (ijk + jj1) + ci3 * rd v (ijk + ii1 + jj1))
                   + ci3 * (ci0 * rd v (ijk - ii2 + jj2) + ci1 * rd v (ijk - ii1 + jj2)
                            + ci2 * rd v (ijk + jj2) + ci3 * rd v (ijk + ii1 + jj2)))
                  + vgrid - rd vg k))))) ut in
  let vt :=
    for_ (kstart g) (kend g) (fun k =>
      for_ (jstart g) (jend g) (fun j =>
        for_ (istart g) (iend g) (fun i vt =>
          let ijk := (i + j * jj1 + k * kk1)%Z in
          wr vt ijk
            (rd vt ijk
             - fc fo
               * ((ci0 * (ci0 * rd u (ijk - ii1 - jj2) + ci1 * rd u (ijk - jj2)
                          + ci2 * rd u (ijk + ii1 - jj2) + ci3 * rd u (ijk + ii2 - jj2))
                   + ci1 * (ci0 * rd u (ijk - ii1 - jj1) + ci1 * rd u (ijk - jj1)
                            + ci2 * rd u (ijk + ii1 - jj1) + ci3 * rd u (ijk + ii2 - jj1))
                   + ci2 * (ci0 * rd u (ijk - ii1) + ci1 * rd u ijk
                            + ci2 * rd u (ijk + ii1) + ci3 * rd u (ijk + ii2))
                   + ci3 * (ci0 * rd u (ijk - ii1 + jj1) + ci1 * rd u (ijk + jj1)
                            + ci2 * rd u (ijk + ii1 + jj1) + ci3 * rd u (ijk + ii2 + jj1)))
                  + ugrid - rd ug k))))) vt in
  (ut, vt).

(** [Force::calcLargeScaleSource]. *)
Definition calcLargeScaleSource (g : Grid D) (st sls : list D) : list D :=
  let jj := icells g in
  let kk := ijcells g in
  for_ (kstart g) (kend g) (fun k =>
    for_ (jstart g) (jend g) (fun j =>
      for_ (istart g) (iend g) (fun i st =>
        let ijk := (i + j * jj + k * kk)%Z in
        wr st ijk (rd st ijk + rd sls k)))) st.

(** [Force::advec_wls_2nd]: the subsidence, upwind in the sign of [wls]. *)
Definition advec_wls_2nd (g : Grid D) (st s wls dzhi : list D) : list D :=
  let jj := icells g in
  let kk := ijcells g in
  for_ (kstart g) (kend g) (fun k st =>
    if dltb (dofZ 0) (rd wls k) then
      for_ (jstart g) (jend g) (fun j =>
        for_ (istart g) (iend g) (fun i st =>
          let ijk := (i + j * jj + k * kk)%Z in
          wr st ijk (rd st ijk - rd wls k * (rd s k - rd s (k - 1)) * rd dzhi k))) st
    else
      for_ (jstart g) (jend g) (fun j =>
        for_ (istart g) (iend g) (fun i st =>
          let ijk := (i + j * jj + k * kk)%Z in
          wr st ijk
            (rd st ijk - rd wls k * (rd s (k + 1) - rd s k) * rd dzhi (k + 1)))) st)
    st.

(** The three blocks of [Force::exec], in the order of the source.  The
    first is the large-scale pressure force. *)
Definition exec_lspres (fo : t D) (o4 : O4 D) (g : Grid D) (f : Fields.t D) (dt : D)
    : Fields.t D :=
  let ut := Fields.data (Fields.ut f) in
  let vt := Fields.data (Fields.vt f) in
  let u := Fields.data (Fields.u f) in
  let v := Fields.data (Fields.v f) in
  if String.eqb (swlspres fo) "uflux" then
    Fields.with_ut f (calcFlux fo g ut u (dz g) dt)
  else if String.eqb (swlspres fo) "geo" then
    if String.eqb (swspatialorder g) "2" then
      let r := calcCoriolis_2nd fo g ut vt u v (ug fo) (vg fo) in
      Fields.with_vt (Fields.with_ut f r.1) r.2
    else if String.eqb (swspatialorder g) "4" then
      let r := calcCoriolis_4th fo o4 g ut vt u v (ug fo) (vg fo) in
      Fields.with_vt (Fields.with_ut f r.1) r.2
    else f
  else f.

(** The large-scale sources of the scalars of [lslist].  Where the source
    would follow a pointer that the maps do not hold, the model leaves
    the fields as they are. *)
Definition exec_ls (fo : t D) (g : Grid D) (f : Fields.t D) : Fields.t D :=
  if String.eqb (swls fo) "1" then
    foldl (fun f it =>
        match Fields.st f !! it, lsprofs fo !! it with
        | Some fld, Some prof =>
            Fields.with_st f
              (<[it := Fields.with_data fld
                         (calcLargeScaleSource g (Fields.data fld) prof)]> (Fields.st f))
        | _, _ => f
        end)
      f (lslist fo)
  else f.

(** The subsidence, for every entry of the map [st] of the tendencies of
    the scalars, with the mean profile of the scalar of the same name in
    [sp].  Each entry is a field of its own, so the order of the iteration
    does not matter.  Where [sp] has no such scalar the source would
    follow a null pointer; the model leaves the tendency as it is. *)
Definition exec_wls (fo : t D) (g : Grid D) (f : Fields.t D) : Fields.t D :=
  if String.eqb (swwls fo) "1" then
    Fields.with_st f
      (map_imap (fun name fld =>
           match Fields.sp f !! name with
           | Some s =>
               Some (Fields.with_data fld
                       (advec_wls_2nd g (Fields.data fld) (Fields.datamean s)
                          (wls fo) (dzhi g)))
           | None => Some fld
           end)
         (Fields.st f))
  else f.

(** [Force::exec]. *)
Definition exec (fo : t D) (o4 : O4 D) (g : Grid D) (f : Fields.t D) (dt : D)
    : Fields.t D :=
  exec_wls fo g (exec_ls fo g (exec_lspres fo o4 g f dt)).

(** The loop of [Force::updateTimeDep] that counts the entries of
    [timedeptime] up to the first one after the time [time]. *)
Fixpoint find_index1 (time : D) (times : list D) (index1 : Z) : Z :=
  match times with
  | [] => index1
  | x :: rest =>
      if dltb time x then index1 else find_index1 time rest (index1 + 1)
  end.

(** [Force::updateTimeDepProfs]. *)
Definition updateTimeDepProfs (fo : t D) (g : Grid D) (fac0 fac1 : D)
    (index0 index1 : Z) : t D :=
  let kk := kmax g in
  let kgc := kgc g in
  with_lsprofs fo
    (foldl (fun lsprofs it1 =>
        let name := it1 +:+ "ls" in
        match timedepdata fo !! name, lsprofs !! it1 with
        | Some d, Some prof =>
            <[it1 := for_ 0 (kmax g) (fun k prof =>
                       wr prof (k + kgc)
                         (fac0 * rd d (index0 * kk + k) + fac1 * rd d (index1 * kk + k)))
                     prof]> lsprofs
        | _, _ => lsprofs
        end)
      (lsprofs fo) (lslist fo)).

(** [Force::updateTimeDep], at the time [time] of the time loop. *)
Definition updateTimeDep (fo : t D) (g : Grid D) (time : D) : t D :=
  if String.eqb (swtimedep fo) "0" then fo
  else
    let index1 := find_index1 time (timedeptime fo) 0 in
    if (index1 =? 0)%Z then
      updateTimeDepProfs fo g (dofZ 0) (dofZ 1) 0 index1
    else if (index1 =? Z.of_nat (length (timedeptime fo)))%Z then
      updateTimeDepProfs fo g (dofZ 1) (dofZ 0) (index1 - 1) (index1 - 1)
    else
      let index0 := (index1 - 1)%Z in
      let timestep := rd (timedeptime fo) index1 - rd (timedeptime fo) index0 in
      let fac0 := (rd (timedeptime fo) index1 - time) / timestep in
      let fac1 := (time - rd (timedeptime fo) index0) / timestep in
      updateTimeDepProfs fo g fac0 fac1 index0 index1.

End Force.
End Force.

(** ** The fourth-order pressure solver, [src/pres_4.cxx] *)

Module Pres4.
Section Pres4.
Context {D : Type} `{Arith D}.
Local Open Scope dbl_scope.

(** The seven diagonals and the right-hand side of the columns of one
    slab, which [Pres_4::solve] hands to [hdma]: rows of [iblock * jslice]
    entries, two ghost rows below and two above the [kmax] rows of the
    column. *)
Record hepta := {
  m1temp : list D; m2temp : list D; m3temp : list D; m4temp : list D;
  m5temp : list D; m6temp : list D; m7temp : list D; ptemp : list D
}.

(** The part of [Pres_4::solve] that sets up the systems of the slab [n],
    between the forward transform and the call of [hdma]: [p] is the
    transformed right-hand side, [m1] to [m7] are the diagonals of the
    vertical operator.  [mpicoordx] and [mpicoordy] are members of
    [Master], which is not among the sources. *)
Definition solve_setup (g : Grid D) (mpicoordx mpicoordy : Z)
    (p m1 m2 m3 m4 m5 m6 m7 bmati bmatj : list D) (jslice n : Z) (t : hepta) : hepta :=
  let kmax := kmax g in
  let iblock := iblock g in
  let jblock := jblock g in
  let jj := iblock in
  let kk := (iblock * jblock)%Z in
  let kki1 := (1 * iblock * jslice)%Z in
  let kki2 := (2 * iblock * jslice)%Z in
  let kki3 := (3 * iblock * jslice)%Z in
  (* a zero gradient at the bottom *)
  let t :=
    for_ 0 jslice (fun j =>
      for_ 0 iblock (fun i t =>
        let ik := (i + j * jj)%Z in
        {| m1temp := wr (m1temp t) ik (dofZ 0);
           m2temp := wr (m2temp t) ik (dofZ 0);
           m3temp := wr (m3temp t) ik (dofZ 0);
           m4temp := wr (m4temp t) ik (dofZ 1);
           m5temp := wr (m5temp t) ik (dofZ 0);
           m6temp := wr (m6temp t) ik (dofZ 0);
           m7temp := wr (m7temp t) ik (dofZ (-1));
           ptemp := wr (ptemp t) ik (dofZ 0) |})) t in
  let t :=
    for_ 0 jslice (fun j =>
      for_ 0 iblock (fun i t =>
        let ik := (i + j * jj)%Z in
        {| m1temp := wr (m1temp t) (ik + kki1) (dofZ 0);
           m2temp := wr (m2temp t) (ik + kki1) (dofZ 0);
           m3temp := wr (m3temp t) (ik + kki1) (dofZ 0);
           m4temp := wr (m4temp t) (ik + kki1) (dofZ 1);
           m5temp := wr (m5temp t) (ik + kki1) (dofZ (-1));
           m6temp := wr (m6temp t) (ik + kki1) (dofZ 0);
           m7temp := wr (m7temp t) (ik + kki1) (dofZ 0);
           ptemp := wr (ptemp t) (ik + kki1) (dofZ 0) |})) t in
  (* the rows of the column *)
  let t :=
    for_ 0 kmax (fun k =>
      for_ 0 jslice (fun j =>
        let jindex := (mpicoordx * jblock + n * jslice + j)%Z in
        for_ 0 iblock (fun i t =>
          let iindex := (mpicoordy * iblock + i)%Z in
          let ijk := (i + (j + n * jslice) * jj + k * kk)%Z in
          let ik := (i + j * jj + k * kki1)%Z in
          {| m1temp := wr (m1temp t) (ik + kki2) (rd m1 k);
             m2temp := wr (m2temp t) (ik + kki2) (rd m2 k);
             m3temp := wr (m3temp t) (ik + kki2) (rd m3 k);
             m4temp := wr (m4temp t) (ik + kki2)
                         (rd m4 k + rd bmati iindex + rd bmatj jindex);
             m5temp := wr (m5temp t) (ik + kki2) (rd m5 k);
             m6temp := wr (m6temp t) (ik + kki2) (rd m6 k);
             m7temp := wr (m7temp t) (ik + kki2) (rd m7 k);
             ptemp := wr (ptemp t) (ik + kki2) (rd p ijk) |}))) t in
  (* the top boundary *)
  let t :=
    for_ 0 jslice (fun j =>
      let jindex := (mpicoordx * jblock + n * jslice + j)%Z in
      for_ 0 iblock (fun i t =>
        let iindex := (mpicoordy * iblock + i)%Z in
        let ik := (i + j * jj + kmax * kki1)%Z in
        if (iindex =? 0)%Z && (jindex =? 0)%Z then
          {| m1temp := wr (wr (m1temp t) (ik + kki2) (dofZ 0)) (ik + kki3) (dofZ (-2));
             m2temp := wr (wr (m2temp t) (ik + kki2) (dofZ (-1) / dofZ 3))
                         (ik + kki3) (dofZ 9);
             m3temp := wr (wr (m3temp t) (ik + kki2) (dofZ 2)) (ik + kki3) (dofZ 0);
             m4temp := wr (wr (m4temp t) (ik + kki2) (dofZ 1)) (ik + kki3) (dofZ 1);
             m5temp := m5temp t; m6temp := m6temp t; m7temp := m7temp t;
             ptemp := ptemp t |}
        else
          {| m1temp := wr (wr (m1temp t) (ik + kki2) (dofZ 0)) (ik + kki3) (dofZ (-1));
             m2temp := wr (wr (m2temp t) (ik + kki2) (dofZ 0)) (ik + kki3) (dofZ 0);
             m3temp := wr (wr (m3temp t) (ik + kki2) (dofZ (-1))) (ik + kki3) (dofZ 0);
             m4temp := wr (wr (m4temp t) (ik + kki2) (dofZ 1)) (ik + kki3) (dofZ 1);
             m5temp := m5temp t; m6temp := m6temp t; m7temp := m7temp t;
             ptemp := ptemp t |})) t in
  let t :=
    for_ 0 jslice (fun j =>
      for_ 0 iblock (fun i t =>
        let ik := (i + j * jj + kmax * kki1)%Z in
        {| m1temp := m1temp t; m2temp := m2temp t; m3temp := m3temp t;
           m4temp := m4temp t;
           m5temp := wr (wr (m5temp t) (ik + kki2) (dofZ 0)) (ik + kki3) (dofZ 0);
           m6temp := wr (wr (m6temp t) (ik + kki2) (dofZ 0)) (ik + kki3) (dofZ 0);
           m7temp := wr (wr (m7temp t) (ik + kki2) (dofZ 0)) (ik + kki3) (dofZ 0);
           ptemp := wr (wr (ptemp t) (ik + kki2) (dofZ 0)) (ik + kki3) (dofZ 0) |})) t in
  t.

End Pres4.
End Pres4.

(** ** The vocabulary of the properties *)

Section Cells.
Context {D : Type} `{Arith D}.

(** The cells [(i, j, k)] that a [k]-[j]-[i] loop nest visits, in the order
    in which it visits them. *)
Definition box (klo khi jlo jhi ilo ihi : Z) : list (Z * Z * Z) :=
  k ← seqZ klo (khi - klo); j ← seqZ jlo (jhi - jlo);
  i ← seqZ ilo (ihi - ilo); [(i, j, k)].

(** The cells [(i, j)] of a [j]-[i] loop nest. *)
Definition box2 (jlo jhi ilo ihi : Z) : list (Z * Z) :=
  j ← seqZ jlo (jhi - jlo); i ← seqZ ilo (ihi - ilo); [(i, j)].

(** [a[ix x] = g x (a[ix x])] *)
Definition upd_at {P : Type} (ix : P -> Z) (g : P -> D -> D) (a : list D) (x : P)
    : list D :=
  wr a (ix x) (g x (rd a (ix x))).

(** The stores [a[n] = v] of a list, first to last. *)
Definition writes (a : list D) (W : list (Z * D)) : list D :=
  foldl (fun a w => wr a w.1 w.2) a W.

End Cells.

(** [ijk = i + j*jj + k*kk] *)
Definition cell_index (jj kk : Z) (c : Z * Z * Z) : Z :=
  let '(i, j, k) := c in i + j * jj + k * kk.

(** The interior cells in the order of the loop nests. *)
Definition interior {D : Type} (g : Grid D) : list (Z * Z * Z) :=
  box (kstart g) (kend g) (jstart g) (jend g) (istart g) (iend g).

(** The seven coefficients of the entry [n] of a slab. *)
Definition coefficients {D : Type} `{Arith D} (t : Pres4.hepta) (n : Z)
    : D * D * D * D * D * D * D :=
  (rd (Pres4.m1temp t) n, rd (Pres4.m2temp t) n, rd (Pres4.m3temp t) n,
   rd (Pres4.m4temp t) n, rd (Pres4.m5temp t) n, rd (Pres4.m6temp t) n,
   rd (Pres4.m7temp t) n).

(** The eight arrays of a slab hold [rows] rows. *)
Definition slab_rows {D : Type} (g : Grid D) (jslice rows : Z) (t : Pres4.hepta (D := D))
    : Prop :=
  let ns := iblock g * jslice * rows in
  ns <= Z.of_nat (length (Pres4.m1temp t)) /\ ns <= Z.of_nat (length (Pres4.m2temp t))
  /\ ns <= Z.of_nat (length (Pres4.m3temp t)) /\ ns <= Z.of_nat (length (Pres4.m4temp t))
  /\ ns <= Z.of_nat (length (Pres4.m5temp t)) /\ ns <= Z.of_nat (length (Pres4.m6temp t))
  /\ ns <= Z.of_nat (length (Pres4.m7temp t)) /\ ns <= Z.of_nat (length (Pres4.ptemp t)).

Section Quantities.
Context {D : Type} `{Arith D}.
Local Open Scope dbl_scope.

(** The sum of [x[ijk] * dz[k]] over the interior, accumulated from [0.]
    in the order of the loop nest. *)
Definition weighted_sum (g : Grid D) (x dz : list D) : D :=
  foldl (fun acc '(i, j, k) =>
           acc + rd x (i + j * icells g + k * ijcells g) * rd dz k)
    (dofZ 0) (interior g).

(** The bulk mean: the weighted sum of all processes over
    [itot * jtot * zsize]. *)
Definition bulk_mean (g : Grid D) (x dz : list D) : D :=
  getSum g (weighted_sum g x dz) / (dofZ (itot g * jtot g) * zsize g).

(** The body force of the flux controller. *)
Definition fbody (fo : Force.t D) (g : Grid D) (ut u dz : list D) (dt : D) : D :=
  (Force.uflux fo - bulk_mean g u dz - utrans g) / dt - bulk_mean g ut dz.


(** The diagonal and the right-hand side before the boundary conditions
    are substituted. *)
Definition column_fill (g : Grid D) (a c bmati bmatj dz p b xin : list D)
    (i j : Z) : list D * list D :=
  for_ 0 (ktot g) (fun k '(b, xin) =>
      let ijk := (i + igc g + (j + jgc g) * icells g
                  + (k + kgc g) * (icells g * jcells g))%Z in
      (wr b k (rd dz (k + kgc g) * rd dz (k + kgc g) * (rd bmati i + rd bmatj j)
               - (rd a k + rd c k)),
       wr xin k (rd dz (k + kgc g) * rd dz (k + kgc g) * rd p ijk)))
    (b, xin).

(** The entry of the column [(i, j)] in the row [r] of a slab. *)
Definition slab_index (ib js i j r : Z) : Z := (i + j * ib + r * (ib * js))%Z.

(** One array of a slab after the five loop nests: the two ghost rows at
    the bottom get [b0] and [b1], the row [k + 2] gets [mid i j k], the
    two ghost rows at the top get [t2 i j] and [t3 i j]. *)
Definition slab_fill (ib js kmax : Z) (b0 b1 : D) (mid : Z -> Z -> Z -> D)
    (t2 t3 : Z -> Z -> D) (a : list D) : list D :=
  let a := writes a (box2 0 js 0 ib ≫= fun '(i, j) => [((i + j * ib)%Z, b0)]) in
  let a := writes a (box2 0 js 0 ib ≫= fun '(i, j) =>
                       [((i + j * ib + 1 * ib * js)%Z, b1)]) in
  let a := writes a (box 0 kmax 0 js 0 ib ≫= fun '(i, j, k) =>
                       [((i + j * ib + k * (1 * ib * js) + 2 * ib * js)%Z, mid i j k)]) in
  writes a (box2 0 js 0 ib ≫= fun '(i, j) =>
              [((i + j * ib + kmax * (1 * ib * js) + 2 * ib * js)%Z, t2 i j);
               ((i + j * ib + kmax * (1 * ib * js) + 3 * ib * js)%Z, t3 i j)]).

(** The wave number of the column [(i, j)] of the slab [n] is zero. *)
Definition zero_mode (g : Grid D) (mpicoordx mpicoordy jslice n i j : Z) : bool :=
  ((mpicoordy * iblock g + i =? 0) && (mpicoordx * jblock g + n * jslice + j =? 0))%Z.

(** The forward sweep of [tdma] alone. *)
Definition tdma_forward (a b c xin xout gam : list D) (size : Z) : Pres2.tdma_state :=
  let tmp := rd b 0 in
  let xout := wr xout 0 (rd xin 0 / tmp) in
  for_ 1 size (fun k s =>
      let gam := wr (Pres2.t_gam s) k (rd c (k - 1)%Z / Pres2.t_tmp s) in
      let tmp := rd b k - rd a k * rd gam k in
      let xout := wr (Pres2.t_xout s) k
                    ((rd xin k - rd a k * rd (Pres2.t_xout s) (k - 1)%Z) / tmp) in
      {| Pres2.t_tmp := tmp; Pres2.t_xout := xout; Pres2.t_gam := gam |})
    {| Pres2.t_tmp := tmp; Pres2.t_xout := xout; Pres2.t_gam := gam |}.

(** What two forward sweeps started from different workspaces share after
    the iterations below [k]. *)
Definition fwd_agree (g1 g2 : list D) (k : Z) (s1 s2 : Pres2.tdma_state) : Prop :=
  Pres2.t_tmp s1 = Pres2.t_tmp s2 /\ Pres2.t_xout s1 = Pres2.t_xout s2
  /\ length (Pres2.t_gam s1) = length g1 /\ length (Pres2.t_gam s2) = length g2
  /\ rd (Pres2.t_gam s1) 0 = rd g1 0 /\ rd (Pres2.t_gam s2) 0 = rd g2 0
  /\ forall n, (1 <= n < k)%Z -> rd (Pres2.t_gam s1) n = rd (Pres2.t_gam s2) n.

End Quantities.


(** Modelled from the spec: the Euler update [u += dt * ut] of the time
    integrator, which is not among the sources. *)
Definition euler (u ut : list R) (dt : R) : list R :=
  zip_with (fun a b => (a + dt * b)%R) u ut.

(** The velocity [u + utrans] in the frame at rest. *)
Definition translate (u : list R) (utrans : R) : list R :=
  (fun a => (a + utrans)%R) <$> u.

(** A single process with the column of height [zsize]: the geometry that
    [Grid] sets up, read off its members. *)
Definition single_column (g : Grid R) : Prop :=
  (forall x, getSum g x = x)
  /\ iend g - istart g = itot g /\ jend g - jstart g = jtot g
  /\ 0 < itot g /\ 0 < jtot g
  /\ foldl (fun acc k => (acc + rd (dz g) k)%R) 0%R
        (seqZ (kstart g) (kend g - kstart g)) = zsize g
  /\ (zsize g > 0)%R.

(** The sum of [F] over a list, accumulated from [0] as the loops do. *)
Definition Rsum {A : Type} (F : A -> R) (l : list A) : R :=
  foldl (fun acc c => (acc + F c)%R) 0%R l.

(** ** Sample inputs

    A block of 2 x 2 x 2 cells with one layer of ghost cells on every
    side, on a single process, and fields on it. *)

Module Sample.
Section Sample.
Context {D : Type} `{Arith D}.
Local Open Scope dbl_scope.

Definition grid : Grid D := {|
  itot := 2; jtot := 2; ktot := 2;
  imax := 2; jmax := 2; kmax := 2;
  iblock := 2; jblock := 2;
  igc := 1; jgc := 1; kgc := 1;
  icells := 4; jcells := 4; kcells := 4; ijcells := 16; ncells := 64;
  istart := 1; iend := 3; jstart := 1; jend := 3; kstart := 1; kend := 3;
  dx := dofZ 2; dy := dofZ 4; zsize := dofZ 4;
  utrans := dofZ 0; vtrans := dofZ 0;
  dz := replicate 4 (dofZ 2);
  dzi := replicate 4 (dofZ 1 / dofZ 2);
  dzhi := replicate 4 (dofZ 1 / dofZ 2);
  swspatialorder := "2";
  getSum := fun x => x
|}.

(** The field with the constant value [x]. *)
Definition uniform (x : D) : list D := replicate 64 x.

(** The field with the value [n] in the cell [n]. *)
Definition ramp (len : nat) : list D := (fun n => dofZ (Z.of_nat n)) <$> seq 0 len.

Definition field (d : list D) : Fields.Field3d D :=
  {| Fields.data := d; Fields.datamean := ramp 4 |}.

(** The velocity [u = 5] at rest, with one scalar [s]. *)
Definition fields : Fields.t D := {|
  Fields.u := field (uniform (dofZ 5)); Fields.v := field (uniform (dofZ 0));
  Fields.w := field (uniform (dofZ 0));
  Fields.ut := field (uniform (dofZ 0)); Fields.vt := field (uniform (dofZ 0));
  Fields.wt := field (uniform (dofZ 0));
  Fields.sp := {[ "s"%string := field (uniform (dofZ 0)) ]};
  Fields.st := {[ "s"%string := field (uniform (dofZ 0)) ]}
|}.

Definition o4 : Force.O4 D := {|
  Force.ci0 := dofZ (-1) / dofZ 16; Force.ci1 := dofZ 9 / dofZ 16;
  Force.ci2 := dofZ 9 / dofZ 16; Force.ci3 := dofZ (-1) / dofZ 16
|}.

(** The flux controller with the target [uflux = 10], the subsidence
    [wls = 1], and a table of the source of [s] at the times [0] and [10]
    with the rows [(0, 0)] and [(0, 1)]. *)
Definition force : Force.t D := {|
  Force.swlspres := "uflux"; Force.swls := "0"; Force.swwls := "1";
  Force.swtimedep := "1";
  Force.uflux := dofZ 10; Force.fc := dofZ 0;
  Force.ug := []; Force.vg := [];
  Force.wls := replicate 4 (dofZ 1);
  Force.lslist := ["s"%string];
  Force.timedeplist := ["s"%string];
  Force.lsprofs := {[ "s"%string := replicate 4 (dofZ 0) ]};
  Force.timedepdata := {[ "sls"%string := [dofZ 0; dofZ 0; dofZ 0; dofZ 1] ]};
  Force.timedeptime := [dofZ 0; dofZ 10]
|}.

(** The arrays of a slab of the fourth-order solver: [kmax + 4 = 6] rows of
    [iblock * jslice = 2] entries. *)
Definition slab : Pres4.hepta := {|
  Pres4.m1temp := replicate 12 (dofZ 7); Pres4.m2temp := replicate 12 (dofZ 7);
  Pres4.m3temp := replicate 12 (dofZ 7); Pres4.m4temp := replicate 12 (dofZ 7);
  Pres4.m5temp := replicate 12 (dofZ 7); Pres4.m6temp := replicate 12 (dofZ 7);
  Pres4.m7temp := replicate 12 (dofZ 7); Pres4.ptemp := replicate 12 (dofZ 7)
|}.

End Sample.
End Sample.

(** ** Arrays and loops: the rules *)

Section ArrayFacts.
Context {D : Type} `{Arith D}.

Lemma length_wr (a : list D) i v : length (wr a i v) = length a.
Proof. unfold wr. destruct (i <? 0); [done | apply length_insert]. Qed.

Lemma rd_wr_eq (a : list D) i v :
  0 <= i < Z.of_nat (length a) -> rd (wr a i v) i = v.
Proof.
  intros Hi. unfold rd, wr.
  destruct (Z.ltb_spec i 0); [lia |].
  rewrite list_lookup_insert_eq; [done | lia].
Qed.

Lemma rd_wr_ne (a : list D) i j v : i <> j -> rd (wr a i v) j = rd a j.
Proof.
  intros Hne. unfold rd, wr.
  destruct (Z.ltb_spec j 0); [done |].
  destruct (Z.ltb_spec i 0); [done |].
  rewrite list_lookup_insert_ne; [done | lia].
Qed.

Lemma for_nil {St : Type} lo hi (body : Z -> St -> St) s :
  hi <= lo -> for_ lo hi body s = s.
Proof.
  intros Hle. unfold for_.
  assert (Hnil : seqZ lo (hi - lo) = []).
  { apply length_zero_iff_nil. rewrite length_seqZ. lia. }
  by rewrite Hnil.
Qed.

Lemma for_snoc {St : Type} lo hi (body : Z -> St -> St) s :
  lo <= hi -> for_ lo (hi + 1) body s = body hi (for_ lo hi body s).
Proof.
  intros Hle. unfold for_.
  replace (hi + 1 - lo) with (Z.of_nat (S (Z.to_nat (hi - lo)))) by lia.
  rewrite seqZ_S, foldl_app. simpl.
  replace (Z.of_nat (Z.to_nat (hi - lo))) with (hi - lo) by lia.
  by replace (lo + (hi - lo)) with hi by lia.
Qed.

(** Induction over the iterations of an upward loop. *)
Lemma for_ind {St : Type} (P : Z -> St -> Prop) lo hi (body : Z -> St -> St) s :
  lo <= hi ->
  P lo s ->
  (forall k s', lo <= k < hi -> P k s' -> P (k + 1) (body k s')) ->
  P hi (for_ lo hi body s).
Proof.
  intros Hle H0 Hstep.
  replace hi with (lo + Z.of_nat (Z.to_nat (hi - lo))) by lia.
  assert (Hn : (Z.of_nat (Z.to_nat (hi - lo)) <= hi - lo)) by lia.
  revert Hn. generalize (Z.to_nat (hi - lo)) as n.
  induction n as [| n IH]; intros Hn.
  - rewrite Z.add_0_r, for_nil by lia. done.
  - replace (lo + Z.of_nat (S n)) with (lo + Z.of_nat n + 1) by lia.
    rewrite for_snoc by lia. apply Hstep; [lia |]. apply IH. lia.
Qed.

Lemma for_down_nil {St : Type} hi lo (body : Z -> St -> St) s :
  hi < lo -> for_down hi lo body s = s.
Proof.
  intros Hlt. unfold for_down.
  assert (Hnil : seqZ lo (hi + 1 - lo) = []).
  { apply length_zero_iff_nil. rewrite length_seqZ. lia. }
  by rewrite Hnil.
Qed.

Lemma for_down_snoc {St : Type} hi lo (body : Z -> St -> St) s :
  lo <= hi -> for_down hi lo body s = body lo (for_down hi (lo + 1) body s).
Proof.
  intros Hle. unfold for_down.
  rewrite (seqZ_cons lo) by lia. rewrite reverse_cons, foldl_app. simpl.
  by replace (Z.pred (hi + 1 - lo)) with (hi + 1 - (lo + 1)) by lia.
Qed.

(** Induction over the iterations of a downward loop: [P k] holds before
    the iteration at [k], [P (lo - 1)] when the loop is left. *)
Lemma for_down_ind {St : Type} (P : Z -> St -> Prop) hi lo (body : Z -> St -> St) s :
  lo - 1 <= hi ->
  P hi s ->
  (forall k s', lo <= k <= hi -> P k s' -> P (k - 1) (body k s')) ->
  P (lo - 1) (for_down hi lo body s).
Proof.
  intros Hle H0 Hstep.
  replace lo with (hi + 1 - Z.of_nat (Z.to_nat (hi + 1 - lo))) by lia.
  assert (Hn : (Z.of_nat (Z.to_nat (hi + 1 - lo)) <= hi + 1 - lo)) by lia.
  revert Hn. generalize (Z.to_nat (hi + 1 - lo)) as n.
  induction n as [| n IH]; intros Hn.
  - rewrite for_down_nil by lia.
    by replace (hi + 1 - Z.of_nat 0 - 1) with hi by lia.
  - rewrite for_down_snoc by lia.
    replace (hi + 1 - Z.of_nat (S n) + 1) with (hi + 1 - Z.of_nat n) by lia.
    apply Hstep; [lia |].
    replace (hi + 1 - Z.of_nat (S n)) with (hi + 1 - Z.of_nat n - 1) by lia.
    apply IH. lia.
Qed.

(** Two runs of one upward loop, related before and after each iteration. *)
Lemma for_rel {S1 S2 : Type} (R : Z -> S1 -> S2 -> Prop) lo hi
    (body1 : Z -> S1 -> S1) (body2 : Z -> S2 -> S2) s1 s2 :
  lo <= hi ->
  R lo s1 s2 ->
  (forall k t1 t2, lo <= k < hi -> R k t1 t2 -> R (k + 1) (body1 k t1) (body2 k t2)) ->
  R hi (for_ lo hi body1 s1) (for_ lo hi body2 s2).
Proof.
  intros Hle H0 Hstep.
  replace hi with (lo + Z.of_nat (Z.to_nat (hi - lo))) by lia.
  assert (Hn : (Z.of_nat (Z.to_nat (hi - lo)) <= hi - lo)) by lia.
  revert Hn. generalize (Z.to_nat (hi - lo)) as n.
  induction n as [| n IH]; intros Hn.
  - rewrite Z.add_0_r, !for_nil by lia. done.
  - replace (lo + Z.of_nat (S n)) with (lo + Z.of_nat n + 1) by lia.
    rewrite !for_snoc by lia. apply Hstep; [lia |]. apply IH. lia.
Qed.

(** The same for a downward loop. *)
Lemma for_down_rel {S1 S2 : Type} (R : Z -> S1 -> S2 -> Prop) hi lo
    (body1 : Z -> S1 -> S1) (body2 : Z -> S2 -> S2) s1 s2 :
  lo - 1 <= hi ->
  R hi s1 s2 ->
  (forall k t1 t2, lo <= k <= hi -> R k t1 t2 -> R (k - 1) (body1 k t1) (body2 k t2)) ->
  R (lo - 1) (for_down hi lo body1 s1) (for_down hi lo body2 s2).
Proof.
  intros Hle H0 Hstep.
  replace lo with (hi + 1 - Z.of_nat (Z.to_nat (hi + 1 - lo))) by lia.
  assert (Hn : (Z.of_nat (Z.to_nat (hi + 1 - lo)) <= hi + 1 - lo)) by lia.
  revert Hn. generalize (Z.to_nat (hi + 1 - lo)) as n.
  induction n as [| n IH]; intros Hn.
  - rewrite !for_down_nil by lia.
    by replace (hi + 1 - Z.of_nat 0 - 1) with hi by lia.
  - rewrite (for_down_snoc hi _ body1), (for_down_snoc hi _ body2) by lia.
    replace (hi + 1 - Z.of_nat (S n) + 1) with (hi + 1 - Z.of_nat n) by lia.
    apply Hstep; [lia |].
    replace (hi + 1 - Z.of_nat (S n)) with (hi + 1 - Z.of_nat n - 1) by lia.
    apply IH. lia.
Qed.

Lemma for_ext {St : Type} lo hi (body1 body2 : Z -> St -> St) s :
  (forall k t, lo <= k < hi -> body1 k t = body2 k t) ->
  for_ lo hi body1 s = for_ lo hi body2 s.
Proof.
  intros Hext. destruct (Z.le_gt_cases lo hi) as [Hle | Hgt].
  - apply (for_rel (fun _ t1 t2 => t1 = t2)); [done | done |].
    intros k t1 t2 Hk ->. by apply Hext.
  - rewrite !for_nil by lia. done.
Qed.

(** *** Loop nests over the cells of a block *)

Lemma foldl_bind {A B C : Type} (f : A -> C -> A) (g : B -> list C) (l : list B) s :
  foldl f s (l ≫= g) = foldl (fun s x => foldl f s (g x)) s l.
Proof.
  revert s. induction l as [| x l IH]; intros s; csimpl; [done |].
  by rewrite foldl_app, IH.
Qed.

Lemma for3_box {St : Type} klo khi jlo jhi ilo ihi (body : Z -> Z -> Z -> St -> St) s :
  for_ klo khi (fun k => for_ jlo jhi (fun j => for_ ilo ihi (fun i => body i j k))) s
  = foldl (fun s '(i, j, k) => body i j k s) s (box klo khi jlo jhi ilo ihi).
Proof.
  unfold box, for_. rewrite foldl_bind.
  revert s. induction (seqZ klo (khi - klo)) as [| k ks IHk]; intros s; [done |].
  simpl. rewrite <- IHk. f_equal. clear IHk.
  rewrite foldl_bind.
  revert s. induction (seqZ jlo (jhi - jlo)) as [| j js IHj]; intros s; [done |].
  simpl. rewrite <- IHj. f_equal. clear IHj.
  by rewrite foldl_bind.
Qed.

Lemma elem_of_box klo khi jlo jhi ilo ihi i j k :
  (i, j, k) ∈ box klo khi jlo jhi ilo ihi
  <-> klo <= k < khi /\ jlo <= j < jhi /\ ilo <= i < ihi.
Proof.
  unfold box. rewrite list_elem_of_bind. split.
  - intros (k' & Hin & Hk). rewrite elem_of_seqZ in Hk.
    rewrite list_elem_of_bind in Hin. destruct Hin as (j' & Hin & Hj).
    rewrite elem_of_seqZ in Hj.
    rewrite list_elem_of_bind in Hin. destruct Hin as (i' & Hin & Hi).
    rewrite elem_of_seqZ in Hi.
    apply list_elem_of_singleton in Hin. injection Hin as -> -> ->. lia.
  - intros (Hk & Hj & Hi). exists k. split; [| apply elem_of_seqZ; lia].
    apply list_elem_of_bind. exists j. split; [| apply elem_of_seqZ; lia].
    apply list_elem_of_bind. exists i. split; [| apply elem_of_seqZ; lia].
    apply list_elem_of_singleton. done.
Qed.

Lemma NoDup_box klo khi jlo jhi ilo ihi : NoDup (box klo khi jlo jhi ilo ihi).
Proof.
  unfold box. apply NoDup_bind; [| | apply NoDup_seqZ].
  - intros k1 k2 [[i j] k] _ _ H1 H2.
    apply list_elem_of_bind in H1 as (? & H1 & _).
    apply list_elem_of_bind in H1 as (? & H1 & _).
    apply list_elem_of_singleton in H1.
    apply list_elem_of_bind in H2 as (? & H2 & _).
    apply list_elem_of_bind in H2 as (? & H2 & _).
    apply list_elem_of_singleton in H2. congruence.
  - intros k _. apply NoDup_bind; [| | apply NoDup_seqZ].
    + intros j1 j2 [[i j] k'] _ _ H1 H2.
      apply list_elem_of_bind in H1 as (? & H1 & _).
      apply list_elem_of_singleton in H1.
      apply list_elem_of_bind in H2 as (? & H2 & _).
      apply list_elem_of_singleton in H2. congruence.
    + intros j _. apply NoDup_bind; [| | apply NoDup_seqZ].
      * intros i1 i2 y _ _ H1 H2.
        apply list_elem_of_singleton in H1.
        apply list_elem_of_singleton in H2. congruence.
      * intros i _. apply NoDup_singleton.
Qed.

(** A component of the state of a loop that evolves on its own. *)
Lemma foldl_proj {A B X : Type} (pr : A -> B) (f : A -> X -> A) (f' : B -> X -> B)
    (l : list X) s :
  (forall t x, x ∈ l -> pr (f t x) = f' (pr t) x) ->
  pr (foldl f s l) = foldl f' (pr s) l.
Proof.
  revert s. induction l as [| x l IH]; intros s Hpr; [done |].
  simpl. rewrite IH.
  - rewrite Hpr; [done | apply list_elem_of_here].
  - intros t y Hy. apply Hpr. by apply list_elem_of_further.
Qed.

(** *** Loops that update one array cell per iteration *)

Section Scatter.
Context {P : Type} (ix : P -> Z) (g : P -> D -> D).

Lemma scatter_length pts a : length (foldl (upd_at ix g) a pts) = length a.
Proof.
  revert a. induction pts as [| y pts IH]; intros a; [done |].
  simpl. rewrite IH. apply length_wr.
Qed.

Lemma scatter_other pts a n :
  (forall x, x ∈ pts -> ix x <> n) -> rd (foldl (upd_at ix g) a pts) n = rd a n.
Proof.
  revert a. induction pts as [| y pts IH]; intros a Hn; [done |].
  simpl. rewrite IH.
  - apply rd_wr_ne. apply Hn, list_elem_of_here.
  - intros x Hx. apply Hn. by apply list_elem_of_further.
Qed.

Lemma scatter_at pts a x :
  NoDup pts ->
  (forall y z, y ∈ pts -> z ∈ pts -> ix y = ix z -> y = z) ->
  x ∈ pts -> 0 <= ix x < Z.of_nat (length a) ->
  rd (foldl (upd_at ix g) a pts) (ix x) = g x (rd a (ix x)).
Proof.
  intros Hnd. revert a. induction Hnd as [| y pts Hy Hnd IH]; intros a Hinj Hx Hr.
  - by apply elem_of_nil in Hx.
  - simpl. apply elem_of_cons in Hx as [-> | Hx].
    + rewrite scatter_other.
      * unfold upd_at. by rewrite rd_wr_eq.
      * intros z Hz Heq. apply Hy.
        rewrite <- (Hinj z y); [done | | | done].
        -- by apply list_elem_of_further.
        -- apply list_elem_of_here.
    + rewrite IH.
      * unfold upd_at at 1. rewrite rd_wr_ne; [done |].
        intros Heq. apply Hy.
        rewrite (Hinj y x); [done | | | done].
        -- apply list_elem_of_here.
        -- by apply list_elem_of_further.
      * intros z1 z2 H1 H2. apply Hinj; by apply list_elem_of_further.
      * done.
      * unfold upd_at. by rewrite length_wr.
Qed.

End Scatter.

End ArrayFacts.

(** ** The layout of the cells *)

Lemma elem_of_interior {D : Type} (g : Grid D) i j k :
  (i, j, k) ∈ interior g
  <-> kstart g <= k < kend g /\ jstart g <= j < jend g /\ istart g <= i < iend g.
Proof. apply elem_of_box. Qed.

Lemma cell_index_inj (ic jc : Z) (c1 c2 : Z * Z * Z) :
  0 <= c1.1.1 < ic -> 0 <= c1.1.2 < jc ->
  0 <= c2.1.1 < ic -> 0 <= c2.1.2 < jc ->
  cell_index ic (ic * jc) c1 = cell_index ic (ic * jc) c2 -> c1 = c2.
Proof.
  destruct c1 as [[i1 j1] k1], c2 as [[i2 j2] k2]. simpl.
  intros Hi1 Hj1 Hi2 Hj2 Heq.
  assert (Hdiv : forall m a1 a2 q1 q2,
             0 <= a1 < m -> 0 <= a2 < m -> a1 + q1 * m = a2 + q2 * m -> q1 = q2).
  { intros m a1 a2 q1 q2 Ha1 Ha2 Hm.
    destruct (Z.lt_trichotomy q1 q2) as [Hlt | [-> | Hgt]]; [nia | done | nia]. }
  assert (Hk : k1 = k2).
  { apply (Hdiv (ic * jc) (i1 + j1 * ic) (i2 + j2 * ic)); [nia | nia | lia]. }
  subst k2.
  assert (Hj : j1 = j2) by (apply (Hdiv ic i1 i2); [lia | lia | lia]).
  subst j2. assert (Hi : i1 = i2) by lia. by subst i2.
Qed.

Lemma cell_index_range (ic jc kc : Z) (c : Z * Z * Z) :
  0 <= c.1.1 < ic -> 0 <= c.1.2 < jc -> 0 <= c.2 < kc ->
  0 <= cell_index ic (ic * jc) c < ic * jc * kc.
Proof.
  destruct c as [[i j] k]. simpl. intros Hi Hj Hk.
  assert (0 <= j * ic <= (jc - 1) * ic) by nia.
  assert (0 <= ic * jc) by nia.
  assert (0 <= k * (ic * jc) <= (kc - 1) * (ic * jc)) by nia.
  nia.
Qed.

(** ** The tridiagonal solver *)

Section TdmaFacts.
Context {D : Type} `{Arith D}.
Local Open Scope dbl_scope.

Lemma tdma_unfold a b c xin xout gam size :
  Pres2.tdma a b c xin xout gam size =
  (for_down (size - 2) 0 (fun k x =>
       wr x k (rd x k
               - rd (Pres2.t_gam (tdma_forward a b c xin xout gam size)) (k + 1)%Z
                 * rd x (k + 1)%Z))
     (Pres2.t_xout (tdma_forward a b c xin xout gam size)),
   Pres2.t_gam (tdma_forward a b c xin xout gam size)).
Proof. reflexivity. Qed.

Lemma tdma_forward_agree a b c xin xout g1 g2 size :
  (size <= Z.of_nat (length g1))%Z -> (size <= Z.of_nat (length g2))%Z ->
  fwd_agree g1 g2 (Z.max 1 size)
    (tdma_forward a b c xin xout g1 size) (tdma_forward a b c xin xout g2 size).
Proof.
  intros H1 H2. unfold tdma_forward.
  destruct (Z.le_gt_cases size 1) as [Hs | Hs].
  - rewrite !for_nil by lia. repeat split; simpl; auto. intros n Hn. lia.
  - replace (Z.max 1 size) with size by lia.
    apply (for_rel (fwd_agree g1 g2)); [lia | |].
    + repeat split; simpl; auto. intros n Hn. lia.
    + intros k t1 t2 Hk (Ht & Hx & Hl1 & Hl2 & Hz1 & Hz2 & Hg). simpl.
      assert (Hr1 : rd (wr (Pres2.t_gam t1) k (rd c (k - 1)%Z / Pres2.t_tmp t1)) k
                    = rd c (k - 1)%Z / Pres2.t_tmp t1)
        by (apply rd_wr_eq; lia).
      assert (Hr2 : rd (wr (Pres2.t_gam t2) k (rd c (k - 1)%Z / Pres2.t_tmp t2)) k
                    = rd c (k - 1)%Z / Pres2.t_tmp t2)
        by (apply rd_wr_eq; lia).
      unfold fwd_agree; simpl. rewrite Hr1, Hr2, !length_wr, Ht, Hx.
      repeat split; auto.
      * rewrite rd_wr_ne by lia. done.
      * rewrite rd_wr_ne by lia. done.
      * intros n Hn. destruct (Z.eq_dec n k) as [-> | Hne].
        -- rewrite !rd_wr_eq by lia. done.
        -- rewrite !rd_wr_ne by lia. apply Hg. lia.
Qed.

End TdmaFacts.

(** ** The sample inputs are well formed *)

Lemma sample_grid_layout {D : Type} `{Arith D} : grid_layout (Sample.grid (D := D)).
Proof. unfold grid_layout. simpl. lia. Qed.

Example tdma_float :
  fst (Pres2.tdma (D := float) [0; 1]%float [2; 2]%float [1; 0]%float
         [3; 3]%float [0; 0]%float [7; 7]%float 2) = [1; 1]%float.
Proof. vm_compute. reflexivity. Qed.

(** The scenario of the flux controller, on the machine numbers: with
    [uflux = 10], [u = 5], [ut = 0] and [dt = 1] the tendency becomes [5]
    in every cell. *)
Example uflux_float :
  Fields.data (Fields.ut (Force.exec (D := float) Sample.force Sample.o4 Sample.grid
                            Sample.fields 1%float))
  = Sample.uniform 5%float.
Proof. vm_compute. reflexivity. Qed.

(** The scenario of the interpolation in time: at [time = 2.5] between the
    rows [(0, 0)] at [0] and [(0, 1)] at [10] the profile is [(0, 0.25)]. *)
Example timedep_float :
  Force.lsprofs (Force.updateTimeDep (D := float) Sample.force Sample.grid 2.5%float)
    !! "s"%string
  = Some [0; 0; 0.25; 0]%float.
Proof. vm_compute. reflexivity. Qed.

(** The scenario of the subsidence: [wls = 1] and the mean profile
    [s[k] = k] give the tendency [- dzhi[k] = - 0.5] in the interior. *)
Example subsidence_float :
  rd (Force.advec_wls_2nd (D := float) Sample.grid (Sample.uniform 0%float)
        (Sample.ramp 4) (replicate 4 1%float) (dzhi Sample.grid)) 21
  = (-0.5)%float.
Proof. vm_compute. reflexivity. Qed.

(** ** Loop nests over the interior of a grid *)

Section InteriorLoops.
Context {D : Type} `{Arith D} {St : Type}.
Variable g : Grid D.
Variable pr : St -> list D.
Variable body : Z -> Z -> Z -> St -> St.
Variable gf : Z -> Z -> Z -> D -> D.

Let idx (i j k : Z) : Z := i + j * icells g + k * (icells g * jcells g).

(** The loop body rewrites the cell [ijk] of the array [pr] of its state,
    from the former value of that cell. *)
Hypothesis body_cell : forall i j k t,
  pr (body i j k t) = wr (pr t) (idx i j k) (gf i j k (rd (pr t) (idx i j k))).

Let nest (s : St) : St :=
  for_ (kstart g) (kend g) (fun k =>
    for_ (jstart g) (jend g) (fun j =>
      for_ (istart g) (iend g) (fun i => body i j k))) s.

Lemma interior_flat s :
  pr (nest s)
  = foldl (upd_at (cell_index (icells g) (icells g * jcells g))
                  (fun '(i, j, k) => gf i j k))
      (pr s) (interior g).
Proof.
  unfold nest. rewrite for3_box.
  apply foldl_proj. intros t [[i j] k] _. apply body_cell.
Qed.

Lemma interior_length s : length (pr (nest s)) = length (pr s).
Proof. rewrite interior_flat. apply scatter_length. Qed.

Lemma interior_at s i j k :
  grid_layout g ->
  Z.of_nat (length (pr s)) = icells g * jcells g * kcells g ->
  kstart g <= k < kend g -> jstart g <= j < jend g -> istart g <= i < iend g ->
  rd (pr (nest s)) (idx i j k) = gf i j k (rd (pr s) (idx i j k)).
Proof.
  intros (Hi0 & Hi1 & Hj0 & Hj1 & Hk0 & Hk1 & _ & _) Hlen Hk Hj Hi.
  rewrite interior_flat.
  apply (scatter_at (cell_index (icells g) (icells g * jcells g))
           (fun '(i, j, k) => gf i j k) (interior g) (pr s) (i, j, k)).
  - apply NoDup_box.
  - intros [[i1 j1] k1] [[i2 j2] k2] H1 H2.
    apply elem_of_interior in H1. apply elem_of_interior in H2.
    apply cell_index_inj; simpl; lia.
  - apply elem_of_interior. lia.
  - rewrite Hlen. apply (cell_index_range _ _ _ (i, j, k)); simpl; lia.
Qed.

Lemma interior_other s n :
  (forall i j k, kstart g <= k < kend g -> jstart g <= j < jend g ->
                 istart g <= i < iend g -> idx i j k <> n) ->
  rd (pr (nest s)) n = rd (pr s) n.
Proof.
  intros Hn. rewrite interior_flat. apply scatter_other.
  intros [[i j] k] Hin. apply elem_of_interior in Hin. apply Hn; lia.
Qed.

End InteriorLoops.

(** ** Loops over the entries of a column *)

Section ColumnLoops.
Context {D : Type} `{Arith D} {St : Type}.
Variable pr : St -> list D.
Variable body : Z -> St -> St.
Variable gf : Z -> D -> D.
Variable off : Z.

(** The loop body rewrites the entry [k + off] of the array [pr] of its
    state, from the former value of that entry. *)
Hypothesis body_entry : forall k t,
  pr (body k t) = wr (pr t) (k + off) (gf k (rd (pr t) (k + off))).

Lemma column_flat lo hi s :
  pr (for_ lo hi body s)
  = foldl (upd_at (fun k => k + off) gf) (pr s) (seqZ lo (hi - lo)).
Proof. unfold for_. apply foldl_proj. intros t k _. apply body_entry. Qed.

Lemma column_length lo hi s : length (pr (for_ lo hi body s)) = length (pr s).
Proof. rewrite column_flat. apply scatter_length. Qed.

Lemma column_at lo hi s k :
  lo <= k < hi -> 0 <= k + off < Z.of_nat (length (pr s)) ->
  rd (pr (for_ lo hi body s)) (k + off) = gf k (rd (pr s) (k + off)).
Proof.
  intros Hk Hr. rewrite column_flat.
  apply (scatter_at (fun k => k + off) gf (seqZ lo (hi - lo)) (pr s) k).
  - apply NoDup_seqZ.
  - intros k1 k2 _ _. lia.
  - apply elem_of_seqZ. lia.
  - done.
Qed.

Lemma column_other lo hi s n :
  (forall k, lo <= k < hi -> k + off <> n) ->
  rd (pr (for_ lo hi body s)) n = rd (pr s) n.
Proof.
  intros Hn. rewrite column_flat. apply scatter_other.
  intros k Hk. apply elem_of_seqZ in Hk. apply Hn. lia.
Qed.

End ColumnLoops.

(** ** Properties of the second-order solver *)

Section Pres2Facts.
Context {D : Type} `{Arith D}.
Local Open Scope dbl_scope.

Lemma pres_2nd_init_a (g : Grid D) (a c : list D) k :
  (ktot g <= Z.of_nat (length a))%Z -> (0 <= k < ktot g)%Z ->
  rd (Pres2.pres_2nd_init g a c).1 k
  = rd (dz g) (k + kgc g) * rd (dzhi g) (k + kgc g).
Proof.
  intros Hlen Hk. unfold Pres2.pres_2nd_init. cbv zeta.
  replace k with (k + 0)%Z at 1 by lia.
  rewrite (column_at fst _ (fun k _ => rd (dz g) (k + kgc g) * rd (dzhi g) (k + kgc g)) 0).
  - done.
  - intros k' [a' c']. simpl. by rewrite Z.add_0_r.
  - lia.
  - simpl. lia.
Qed.

Lemma pres_2nd_init_c (g : Grid D) (a c : list D) k :
  (ktot g <= Z.of_nat (length c))%Z -> (0 <= k < ktot g)%Z ->
  rd (Pres2.pres_2nd_init g a c).2 k
  = rd (dz g) (k + kgc g) * rd (dzhi g) (k + kgc g + 1).
Proof.
  intros Hlen Hk. unfold Pres2.pres_2nd_init. cbv zeta.
  replace k with (k + 0)%Z at 1 by lia.
  rewrite (column_at snd _ (fun k _ => rd (dz g) (k + kgc g) * rd (dzhi g) (k + kgc g + 1)) 0).
  - done.
  - intros k' [a' c']. simpl. by rewrite Z.add_0_r.
  - lia.
  - simpl. lia.
Qed.

Lemma column_system_unfold g a c bmati bmatj dz p b xin i j :
  Pres2.column_system g a c bmati bmatj dz p b xin i j
  = let f := column_fill g a c bmati bmatj dz p b xin i j in
    let b1 := wr f.1 0 (rd f.1 0 + rd a 0) in
    (if (i =? 0)%Z && (j =? 0)%Z
     then wr b1 (ktot g - 1) (rd b1 (ktot g - 1) - rd c (ktot g - 1))
     else wr b1 (ktot g - 1) (rd b1 (ktot g - 1) + rd c (ktot g - 1)),
     f.2).
Proof.
  unfold Pres2.column_system, column_fill. cbv zeta.
  by destruct (for_ 0 (ktot g) _ (b, xin)).
Qed.

Lemma column_fill_b g a c bmati bmatj dz p b xin i j k :
  (ktot g <= Z.of_nat (length b))%Z -> (0 <= k < ktot g)%Z ->
  rd (column_fill g a c bmati bmatj dz p b xin i j).1 k
  = rd dz (k + kgc g) * rd dz (k + kgc g) * (rd bmati i + rd bmatj j)
    - (rd a k + rd c k).
Proof.
  intros Hlen Hk. unfold column_fill.
  replace k with (k + 0)%Z at 1 by lia.
  rewrite (column_at fst _
             (fun k _ => rd dz (k + kgc g) * rd dz (k + kgc g) * (rd bmati i + rd bmatj j)
                         - (rd a k + rd c k)) 0).
  - done.
  - intros k' [b' x']. simpl. by rewrite Z.add_0_r.
  - lia.
  - simpl. lia.
Qed.

Lemma column_fill_xin g a c bmati bmatj dz p b xin i j k :
  (ktot g <= Z.of_nat (length xin))%Z -> (0 <= k < ktot g)%Z ->
  rd (column_fill g a c bmati bmatj dz p b xin i j).2 k
  = rd dz (k + kgc g) * rd dz (k + kgc g)
    * rd p (i + igc g + (j + jgc g) * icells g + (k + kgc g) * (icells g * jcells g)).
Proof.
  intros Hlen Hk. unfold column_fill.
  replace k with (k + 0)%Z at 1 by lia.
  rewrite (column_at snd _
             (fun k _ => rd dz (k + kgc g) * rd dz (k + kgc g)
                         * rd p (i + igc g + (j + jgc g) * icells g
                                 + (k + kgc g) * (icells g * jcells g))) 0).
  - done.
  - intros k' [b' x']. simpl. by rewrite Z.add_0_r.
  - lia.
  - simpl. lia.
Qed.

Lemma column_fill_length_b g a c bmati bmatj dz p b xin i j :
  length (column_fill g a c bmati bmatj dz p b xin i j).1 = length b.
Proof.
  unfold column_fill.
  rewrite (column_length fst _
             (fun k _ => rd dz (k + kgc g) * rd dz (k + kgc g) * (rd bmati i + rd bmatj j)
                         - (rd a k + rd c k)) 0); [done |].
  intros k' [b' x']. simpl. by rewrite Z.add_0_r.
Qed.

(** The cells of the three tendencies after the projection, in the
    arithmetic of the source: the gradient is multiplied with the inverse
    spacing. *)
Lemma pres_2nd_out_cells (g : Grid D) (ut vt wt p dzhi : list D) i j k :
  grid_layout g ->
  Z.of_nat (length ut) = (icells g * jcells g * kcells g)%Z ->
  Z.of_nat (length vt) = (icells g * jcells g * kcells g)%Z ->
  Z.of_nat (length wt) = (icells g * jcells g * kcells g)%Z ->
  (kstart g <= k < kend g)%Z -> (jstart g <= j < jend g)%Z ->
  (istart g <= i < iend g)%Z ->
  let ijk := (i + j * icells g + k * (icells g * jcells g))%Z in
  let r := Pres2.pres_2nd_out g ut vt wt p dzhi in
  rd r.1.1 ijk = rd ut ijk - (rd p ijk - rd p (ijk - 1)) * (dofZ 1 / dx g)
  /\ rd r.1.2 ijk = rd vt ijk - (rd p ijk - rd p (ijk - icells g)) * (dofZ 1 / dy g)
  /\ rd r.2 ijk
     = rd wt ijk - (rd p ijk - rd p (ijk - icells g * jcells g)) * rd dzhi k.
Proof.
  intros Hg Hu Hv Hw Hk Hj Hi. cbv zeta. unfold Pres2.pres_2nd_out. cbv zeta.
  split; [| split].
  - apply (interior_at g (fun t : list D * list D * list D => t.1.1) _
             (fun i j k old =>
                let ijk := (i + j * icells g + k * (icells g * jcells g))%Z in
                old - (rd p ijk - rd p (ijk - 1)) * (dofZ 1 / dx g))); auto.
    by intros i' j' k' [[a b] c].
  - apply (interior_at g (fun t : list D * list D * list D => t.1.2) _
             (fun i j k old =>
                let ijk := (i + j * icells g + k * (icells g * jcells g))%Z in
                old - (rd p ijk - rd p (ijk - icells g)) * (dofZ 1 / dy g))); auto.
    by intros i' j' k' [[a b] c].
  - apply (interior_at g (fun t : list D * list D * list D => t.2) _
             (fun i j k old =>
                let ijk := (i + j * icells g + k * (icells g * jcells g))%Z in
                old - (rd p ijk - rd p (ijk - icells g * jcells g)) * rd dzhi k)); auto.
    by intros i' j' k' [[a b] c].
Qed.

(** Outside the interior the projection leaves the tendencies as they are. *)
Lemma pres_2nd_out_frame (g : Grid D) (ut vt wt p dzhi : list D) n :
  (forall i j k, (kstart g <= k < kend g)%Z -> (jstart g <= j < jend g)%Z ->
                 (istart g <= i < iend g)%Z ->
                 (i + j * icells g + k * (icells g * jcells g))%Z <> n) ->
  let r := Pres2.pres_2nd_out g ut vt wt p dzhi in
  rd r.1.1 n = rd ut n /\ rd r.1.2 n = rd vt n /\ rd r.2 n = rd wt n.
Proof.
  intros Hn. cbv zeta. unfold Pres2.pres_2nd_out. cbv zeta.
  split; [| split].
  - apply (interior_other g (fun t : list D * list D * list D => t.1.1) _
             (fun i j k old =>
                let ijk := (i + j * icells g + k * (icells g * jcells g))%Z in
                old - (rd p ijk - rd p (ijk - 1)) * (dofZ 1 / dx g))); auto.
    by intros i' j' k' [[a b] c].
  - apply (interior_other g (fun t : list D * list D * list D => t.1.2) _
             (fun i j k old =>
                let ijk := (i + j * icells g + k * (icells g * jcells g))%Z in
                old - (rd p ijk - rd p (ijk - icells g)) * (dofZ 1 / dy g))); auto.
    by intros i' j' k' [[a b] c].
  - apply (interior_other g (fun t : list D * list D * list D => t.2) _
             (fun i j k old =>
                let ijk := (i + j * icells g + k * (icells g * jcells g))%Z in
                old - (rd p ijk - rd p (ijk - icells g * jcells g)) * rd dzhi k)); auto.
    by intros i' j' k' [[a b] c].
Qed.

Lemma pres_2nd_out_length (g : Grid D) (ut vt wt p dzhi : list D) :
  let r := Pres2.pres_2nd_out g ut vt wt p dzhi in
  length r.1.1 = length ut /\ length r.1.2 = length vt /\ length r.2 = length wt.
Proof.
  cbv zeta. unfold Pres2.pres_2nd_out. cbv zeta.
  split; [| split].
  - apply (interior_length g (fun t : list D * list D * list D => t.1.1) _
             (fun i j k old =>
                let ijk := (i + j * icells g + k * (icells g * jcells g))%Z in
                old - (rd p ijk - rd p (ijk - 1)) * (dofZ 1 / dx g))).
    by intros i' j' k' [[a b] c].
  - apply (interior_length g (fun t : list D * list D * list D => t.1.2) _
             (fun i j k old =>
                let ijk := (i + j * icells g + k * (icells g * jcells g))%Z in
                old - (rd p ijk - rd p (ijk - icells g)) * (dofZ 1 / dy g))).
    by intros i' j' k' [[a b] c].
  - apply (interior_length g (fun t : list D * list D * list D => t.2) _
             (fun i j k old =>
                let ijk := (i + j * icells g + k * (icells g * jcells g))%Z in
                old - (rd p ijk - rd p (ijk - icells g * jcells g)) * rd dzhi k)).
    by intros i' j' k' [[a b] c].
Qed.

End Pres2Facts.


(** C2. For every wave number pair [(i, j)] the tridiagonal system of the
    column has [a[k] = dz[k+kgc] * dzhi[k+kgc]],
    [c[k] = dz[k+kgc] * dzhi[k+kgc+1]], the right-hand side
    [dz[k+kgc]^2 * p[ijk]] and the diagonal
    [dz[k+kgc]^2 * (bmati[i] + bmatj[j]) - (a[k] + c[k])], to which [a[0]]
    is added in row [0] for every pair; in the last row [c[ktot-1]] is
    subtracted when [(i, j) = (0, 0)] and added for every other pair. *)
Theorem column_system_coefficients {D : Type} `{Arith D}
    (g : Grid D) (a0 c0 bmati bmatj p b0 xin0 : list D) (i j k : Z) :
  let a := (Pres2.pres_2nd_init g a0 c0).1 in
  let c := (Pres2.pres_2nd_init g a0 c0).2 in
  let sys := Pres2.column_system g a c bmati bmatj (dz g) p b0 xin0 i j in
  let dzk := rd (dz g) (k + kgc g) in
  let ijk := i + igc g + (j + jgc g) * icells g + (k + kgc g) * (icells g * jcells g) in
  let interior_row := (dzk * dzk * (rd bmati i + rd bmatj j) - (rd a k + rd c k))%dbl in
  let bottom_row := if k =? 0 then (interior_row + rd a 0)%dbl else interior_row in
  ktot g <= Z.of_nat (length a0) -> ktot g <= Z.of_nat (length c0) ->
  ktot g <= Z.of_nat (length b0) -> ktot g <= Z.of_nat (length xin0) ->
  0 <= k < ktot g ->
  rd a k = (dzk * rd (dzhi g) (k + kgc g))%dbl
  /\ rd c k = (dzk * rd (dzhi g) (k + kgc g + 1))%dbl
  /\ rd sys.2 k = (dzk * dzk * rd p ijk)%dbl
  /\ (k <> ktot g - 1 -> rd sys.1 k = bottom_row)
  /\ (k = ktot g - 1 -> i = 0 /\ j = 0 -> rd sys.1 k = (bottom_row - rd c k)%dbl)
  /\ (k = ktot g - 1 -> ~ (i = 0 /\ j = 0) -> rd sys.1 k = (bottom_row + rd c k)%dbl).
Proof.
  intros a c sys dzk ijk interior_row bottom_row Ha Hc Hb Hx Hk.
  split; [by apply pres_2nd_init_a |].
  split; [by apply pres_2nd_init_c |].
  subst sys. rewrite column_system_unfold. cbv zeta. simpl fst. simpl snd.
  split; [by apply column_fill_xin |].
  pose proof (column_fill_length_b g a c bmati bmatj (dz g) p b0 xin0 i j) as Hlen.
  set (f := column_fill g a c bmati bmatj (dz g) p b0 xin0 i j) in *.
  assert (Hbot : rd (wr f.1 0 (rd f.1 0 + rd a 0)%dbl) k = bottom_row).
  { subst bottom_row interior_row dzk. destruct (Z.eqb_spec k 0) as [-> | Hne].
    - rewrite rd_wr_eq by lia. subst f. by rewrite column_fill_b by lia.
    - rewrite rd_wr_ne by lia. subst f. by rewrite column_fill_b by lia. }
  assert (Hl1 : length (wr f.1 0 (rd f.1 0 + rd a 0)%dbl) = length b0)
    by (by rewrite length_wr).
  split; [| split].
  - intros Hne. destruct ((i =? 0) && (j =? 0)); by rewrite rd_wr_ne by lia.
  - intros -> [-> ->]. simpl. rewrite rd_wr_eq by lia. by rewrite Hbot.
  - intros -> Hij.
    destruct (Z.eqb_spec i 0) as [-> | Hi]; destruct (Z.eqb_spec j 0) as [-> | Hj];
      simpl; try (exfalso; apply Hij; done);
      rewrite rd_wr_eq by lia; by rewrite Hbot.
Qed.

Lemma column_system_coefficients_witness :
  (ktot (Sample.grid (D := float)) <= Z.of_nat (length [0; 0]%float))
  /\ rd (Pres2.column_system Sample.grid
           (Pres2.pres_2nd_init Sample.grid [0; 0]%float [0; 0]%float).1
           (Pres2.pres_2nd_init Sample.grid [0; 0]%float [0; 0]%float).2
           [0; -1]%float [0; -1]%float (dz Sample.grid) (Sample.ramp 64)
           [0; 0]%float [0; 0]%float 0 0).1 1
     = (-3)%float.
Proof.
  split; [simpl; lia |].
  destruct (column_system_coefficients Sample.grid [0; 0]%float [0; 0]%float
              [0; -1]%float [0; -1]%float (Sample.ramp 64) [0; 0]%float [0; 0]%float
              0 0 1) as (_ & _ & _ & _ & Hzero & _); try (simpl; lia).
  rewrite Hzero; [| reflexivity | split; reflexivity].
  vm_compute. reflexivity.
Defined.

(** C3. At every interior cell, [pres_2nd_in] sets [p[ijk]] to the discrete
    divergence of [(ut + u/dt, vt + v/dt, wt + w/dt)]: the difference
    between the east and the west face times [1/dx], plus the difference
    between the north and the south face times [1/dy], plus the difference
    between the top and the bottom face times [dzi[k]].  This holds in
    every arithmetic and for every [dt]. *)
Theorem pres_2nd_in_divergence {D : Type} `{Arith D}
    (g : Grid D) (p u v w ut vt wt dzi : list D) (dt : D) (i j k : Z) :
  grid_layout g ->
  Z.of_nat (length p) = icells g * jcells g * kcells g ->
  kstart g <= k < kend g -> jstart g <= j < jend g -> istart g <= i < iend g ->
  let ijk := i + j * icells g + k * (icells g * jcells g) in
  let east := ijk + 1 in
  let north := ijk + icells g in
  let top := ijk + icells g * jcells g in
  rd (Pres2.pres_2nd_in g p u v w ut vt wt dzi dt) ijk
  = (((rd ut east + rd u east / dt) - (rd ut ijk + rd u ijk / dt)) * (dofZ 1 / dx g)
     + ((rd vt north + rd v north / dt) - (rd vt ijk + rd v ijk / dt)) * (dofZ 1 / dy g)
     + ((rd wt top + rd w top / dt) - (rd wt ijk + rd w ijk / dt)) * rd dzi k)%dbl.
Proof.
  intros Hg Hlen Hk Hj Hi. cbv zeta. unfold Pres2.pres_2nd_in. cbv zeta.
  apply (interior_at g (fun a => a)
           (fun i j k p =>
              let ijk := i + j * icells g + k * (icells g * jcells g) in
              wr p ijk
                (((rd ut (ijk + 1) + rd u (ijk + 1) / dt) - (rd ut ijk + rd u ijk / dt))
                   * (dofZ 1 / dx g)
                 + ((rd vt (ijk + icells g) + rd v (ijk + icells g) / dt)
                    - (rd vt ijk + rd v ijk / dt)) * (dofZ 1 / dy g)
                 + ((rd wt (ijk + icells g * jcells g) + rd w (ijk + icells g * jcells g) / dt)
                    - (rd wt ijk + rd w ijk / dt)) * rd dzi k)%dbl)
           (fun i j k _ =>
              let ijk := i + j * icells g + k * (icells g * jcells g) in
              (((rd ut (ijk + 1) + rd u (ijk + 1) / dt) - (rd ut ijk + rd u ijk / dt))
                 * (dofZ 1 / dx g)
               + ((rd vt (ijk + icells g) + rd v (ijk + icells g) / dt)
                  - (rd vt ijk + rd v ijk / dt)) * (dofZ 1 / dy g)
               + ((rd wt (ijk + icells g * jcells g) + rd w (ijk + icells g * jcells g) / dt)
                  - (rd wt ijk + rd w ijk / dt)) * rd dzi k)%dbl));
    auto.
Qed.

Lemma pres_2nd_in_divergence_witness :
  grid_layout (Sample.grid (D := float))
  /\ rd (Pres2.pres_2nd_in Sample.grid (Sample.uniform 0%float)
           (Sample.ramp 64) (Sample.ramp 64) (Sample.ramp 64)
           (Sample.uniform 1%float) (Sample.uniform 1%float) (Sample.uniform 1%float)
           (dzi Sample.grid) 2%float) 21
     = 4.75%float.
Proof.
  split; [apply sample_grid_layout |].
  change 21 with (1 + 1 * icells (Sample.grid (D := float))
                  + 1 * (icells (Sample.grid (D := float))
                         * jcells (Sample.grid (D := float)))).
  rewrite (pres_2nd_in_divergence Sample.grid); simpl; try lia.
  - vm_compute. reflexivity.
  - apply sample_grid_layout.
Defined.


(** C4. At every interior cell the projection subtracts
    [(p[ijk] - p[ijk-1]) / dx] from [ut], [(p[ijk] - p[ijk-icells]) / dy]
    from [vt] and [(p[ijk] - p[ijk-ijcells]) * dzhi[k]] from [wt]; every
    other cell of the three tendencies keeps its value, and the function
    has no other output.  The quotients are those of exact arithmetic: the
    source multiplies with [1/dx] and [1/dy]. *)
Theorem pres_2nd_out_projection (g : Grid R) (ut vt wt p dzhi : list R) :
  grid_layout g ->
  Z.of_nat (length ut) = ncells g ->
  Z.of_nat (length vt) = ncells g ->
  Z.of_nat (length wt) = ncells g ->
  let r := Pres2.pres_2nd_out g ut vt wt p dzhi in
  (forall i j k,
      kstart g <= k < kend g -> jstart g <= j < jend g -> istart g <= i < iend g ->
      let ijk := i + j * icells g + k * ijcells g in
      rd r.1.1 ijk = (rd ut ijk - (rd p ijk - rd p (ijk - 1)) / dx g)%R
      /\ rd r.1.2 ijk = (rd vt ijk - (rd p ijk - rd p (ijk - icells g)) / dy g)%R
      /\ rd r.2 ijk = (rd wt ijk - (rd p ijk - rd p (ijk - ijcells g)) * rd dzhi k)%R)
  /\ (forall n,
        (forall i j k,
            kstart g <= k < kend g -> jstart g <= j < jend g ->
            istart g <= i < iend g -> i + j * icells g + k * ijcells g <> n) ->
        rd r.1.1 n = rd ut n /\ rd r.1.2 n = rd vt n /\ rd r.2 n = rd wt n)
  /\ (length r.1.1 = length ut /\ length r.1.2 = length vt
      /\ length r.2 = length wt).
Proof.
  intros Hg Hu Hv Hw r. subst r.
  pose proof Hg as (_ & _ & _ & _ & _ & _ & Hij & Hn).
  rewrite Hn, Hij in Hu, Hv, Hw. rewrite Hij.
  split; [| split].
  - intros i j k Hk Hj Hi. cbv zeta.
    destruct (pres_2nd_out_cells g ut vt wt p dzhi i j k Hg Hu Hv Hw Hk Hj Hi)
      as (-> & -> & ->).
    simpl. repeat split; unfold Rdiv; ring.
  - intros n Hout. by apply pres_2nd_out_frame.
  - apply pres_2nd_out_length.
Qed.

Lemma pres_2nd_out_projection_witness :
  grid_layout (Sample.grid (D := R))
  /\ rd (Pres2.pres_2nd_out Sample.grid (Sample.uniform 0%R) (Sample.uniform 0%R)
           (Sample.uniform 0%R) (Sample.ramp 64) (dzhi Sample.grid)).1.1 21
     = (0 - (21 - 20) / 2)%R.
Proof.
  split; [apply sample_grid_layout |].
  destruct (pres_2nd_out_projection Sample.grid (Sample.uniform 0%R)
              (Sample.uniform 0%R) (Sample.uniform 0%R) (Sample.ramp 64)
              (dzhi Sample.grid))
    as (Hin & _); try reflexivity; [apply sample_grid_layout |].
  destruct (Hin 1 1 1) as (Hut & _); try (simpl; lia).
  exact Hut.
Defined.

(** C8. Two runs of [tdma] that differ only in the initial contents of the
    workspace [gam] return the same [xout].  The entries [gam[k]] with
    [1 <= k < size] that the runs leave behind are the same, so each was
    written before the back-substitution read it, and [gam[0]] still has
    its initial value in both runs: it is never written, and the result
    does not depend on it. *)
Theorem tdma_gam_independent {D : Type} `{Arith D}
    (a b c xin xout gam1 gam2 : list D) (size : Z) :
  size <= Z.of_nat (length gam1) -> size <= Z.of_nat (length gam2) ->
  fst (Pres2.tdma a b c xin xout gam1 size) = fst (Pres2.tdma a b c xin xout gam2 size)
  /\ (forall k, 1 <= k < size ->
        rd (snd (Pres2.tdma a b c xin xout gam1 size)) k
        = rd (snd (Pres2.tdma a b c xin xout gam2 size)) k)
  /\ rd (snd (Pres2.tdma a b c xin xout gam1 size)) 0 = rd gam1 0
  /\ rd (snd (Pres2.tdma a b c xin xout gam2 size)) 0 = rd gam2 0.
Proof.
  intros H1 H2.
  destruct (tdma_forward_agree a b c xin xout gam1 gam2 size H1 H2)
    as (Ht & Hx & Hl1 & Hl2 & Hz1 & Hz2 & Hg).
  rewrite !tdma_unfold. simpl. repeat split; auto.
  - destruct (Z.le_gt_cases size 1) as [Hs | Hs].
    + rewrite !for_down_nil by lia. done.
    + replace (Z.max 1 size) with size in Hg by lia.
      apply (for_down_rel (fun _ x1 x2 => x1 = x2)); [lia | done |].
      intros k t1 t2 Hk ->. rewrite (Hg (k + 1)) by lia. done.
  - intros k Hk. apply Hg. lia.
Qed.

Lemma tdma_gam_independent_witness :
  (2 <= Z.of_nat (length [7; 7]%float)) /\
  fst (Pres2.tdma [0; 1]%float [2; 2]%float [1; 0]%float
         [3; 3]%float [0; 0]%float [7; 7]%float 2)
  = fst (Pres2.tdma [0; 1]%float [2; 2]%float [1; 0]%float
         [3; 3]%float [0; 0]%float [-5; 11]%float 2).
Proof.
  split; [simpl; lia |].
  apply (tdma_gam_independent [0; 1]%float [2; 2]%float [1; 0]%float
           [3; 3]%float [0; 0]%float [7; 7]%float [-5; 11]%float 2);
    simpl; lia.
Defined.

(** ** Properties of the forcings *)

Section ForceFacts.
Context {D : Type} `{Arith D}.
Local Open Scope dbl_scope.

Lemma calcFlux_unfold fo g ut u dz dt :
  Force.calcFlux fo g ut u dz dt
  = for_ 0 (ncells g) (fun n x => wr x n (rd x n + fbody fo g ut u dz dt)) ut.
Proof.
  unfold Force.calcFlux. cbv zeta.
  set (body := fun (i j k : Z) (acc : D * D) =>
                 let '(uavg, utavg) := acc in
                 (uavg + rd u (i + j * icells g + k * ijcells g) * rd dz k,
                  utavg + rd ut (i + j * icells g + k * ijcells g) * rd dz k)).
  change (for_ (kstart g) (kend g) _ (dofZ 0, dofZ 0))
    with (for_ (kstart g) (kend g) (fun k =>
            for_ (jstart g) (jend g) (fun j =>
              for_ (istart g) (iend g) (fun i => body i j k))) (dofZ 0, dofZ 0)).
  rewrite for3_box.
  set (r := foldl _ (dofZ 0, dofZ 0) _).
  assert (H1 : r.1 = weighted_sum g u dz).
  { subst r. unfold weighted_sum.
    apply (foldl_proj fst). by intros [a b] [[i j] k] _. }
  assert (H2 : r.2 = weighted_sum g ut dz).
  { subst r. unfold weighted_sum.
    apply (foldl_proj snd). by intros [a b] [[i j] k] _. }
  destruct r as [uavg utavg]. simpl in H1, H2. subst uavg utavg.
  reflexivity.
Qed.

Lemma calcFlux_length fo g ut u dz dt :
  length (Force.calcFlux fo g ut u dz dt) = length ut.
Proof.
  rewrite calcFlux_unfold.
  apply (column_length (fun a => a) _ (fun _ old => old + fbody fo g ut u dz dt) 0).
  intros k t. by rewrite Z.add_0_r.
Qed.

Lemma calcFlux_cell fo g ut u dz dt n :
  (ncells g <= Z.of_nat (length ut))%Z -> (0 <= n < ncells g)%Z ->
  rd (Force.calcFlux fo g ut u dz dt) n = rd ut n + fbody fo g ut u dz dt.
Proof.
  intros Hlen Hn. rewrite calcFlux_unfold.
  replace n with (n + 0)%Z by lia.
  apply (column_at (fun a => a) _ (fun _ old => old + fbody fo g ut u dz dt) 0).
  - intros k t. by rewrite Z.add_0_r.
  - lia.
  - lia.
Qed.

(** The sources and the subsidence act on the map [st] alone. *)
Lemma exec_ls_frame fo g (f : Fields.t D) :
  let f' := Force.exec_ls fo g f in
  Fields.u f' = Fields.u f /\ Fields.v f' = Fields.v f /\ Fields.w f' = Fields.w f
  /\ Fields.ut f' = Fields.ut f /\ Fields.vt f' = Fields.vt f
  /\ Fields.wt f' = Fields.wt f /\ Fields.sp f' = Fields.sp f.
Proof.
  cbv zeta. unfold Force.exec_ls.
  destruct (String.eqb (Force.swls fo) "1"); [| done].
  revert f. induction (Force.lslist fo) as [| it l IH]; intros f; [done |].
  simpl. destruct (Fields.st f !! it), (Force.lsprofs fo !! it);
    try apply IH.
  destruct (IH (Fields.with_st f
                  (<[it := Fields.with_data f0
                             (Force.calcLargeScaleSource g (Fields.data f0) l0)]>
                     (Fields.st f)))) as (? & ? & ? & ? & ? & ? & ?).
  done.
Qed.

Lemma exec_wls_frame fo g (f : Fields.t D) :
  let f' := Force.exec_wls fo g f in
  Fields.u f' = Fields.u f /\ Fields.v f' = Fields.v f /\ Fields.w f' = Fields.w f
  /\ Fields.ut f' = Fields.ut f /\ Fields.vt f' = Fields.vt f
  /\ Fields.wt f' = Fields.wt f /\ Fields.sp f' = Fields.sp f.
Proof.
  cbv zeta. unfold Force.exec_wls.
  by destruct (String.eqb (Force.swwls fo) "1").
Qed.

Lemma exec_ut fo o4 g (f : Fields.t D) dt :
  Fields.ut (Force.exec fo o4 g f dt) = Fields.ut (Force.exec_lspres fo o4 g f dt).
Proof.
  unfold Force.exec.
  destruct (exec_wls_frame fo g (Force.exec_ls fo g (Force.exec_lspres fo o4 g f dt)))
    as (_ & _ & _ & -> & _).
  by destruct (exec_ls_frame fo g (Force.exec_lspres fo o4 g f dt))
    as (_ & _ & _ & -> & _).
Qed.

(** The cells of a tendency after the subsidence, in the arithmetic of the
    source. *)
Lemma advec_wls_2nd_cell (g : Grid D) (st s wls dzhi : list D) i j k :
  grid_layout g ->
  Z.of_nat (length st) = ncells g ->
  (kstart g <= k < kend g)%Z -> (jstart g <= j < jend g)%Z ->
  (istart g <= i < iend g)%Z ->
  let ijk := (i + j * icells g + k * ijcells g)%Z in
  rd (Force.advec_wls_2nd g st s wls dzhi) ijk
  = if dltb (dofZ 0) (rd wls k)
    then rd st ijk - rd wls k * (rd s k - rd s (k - 1)) * rd dzhi k
    else rd st ijk - rd wls k * (rd s (k + 1) - rd s k) * rd dzhi (k + 1).
Proof.
  intros Hg Hlen Hk Hj Hi. cbv zeta.
  pose proof Hg as (_ & _ & _ & _ & _ & _ & Hij & Hn).
  unfold Force.advec_wls_2nd. cbv zeta. rewrite Hij in *.
  set (gf := fun (i j k : Z) (old : D) =>
               if dltb (dofZ 0) (rd wls k)
               then old - rd wls k * (rd s k - rd s (k - 1)) * rd dzhi k
               else old - rd wls k * (rd s (k + 1) - rd s k) * rd dzhi (k + 1)).
  set (body := fun (i j k : Z) (a : list D) =>
                 wr a (i + j * icells g + k * (icells g * jcells g))
                   (gf i j k (rd a (i + j * icells g + k * (icells g * jcells g))))).
  rewrite (for_ext _ _ _
             (fun k => for_ (jstart g) (jend g) (fun j =>
                         for_ (istart g) (iend g) (fun i => body i j k)))).
  - apply (interior_at g (fun a => a) body gf); auto. lia.
  - intros k' t _. subst body gf. simpl.
    destruct (dltb (dofZ 0) (rd wls k')); reflexivity.
Qed.

Lemma exec_lspres_frame fo o4 g (f : Fields.t D) dt :
  let f' := Force.exec_lspres fo o4 g f dt in
  Fields.u f' = Fields.u f /\ Fields.v f' = Fields.v f /\ Fields.w f' = Fields.w f
  /\ Fields.wt f' = Fields.wt f /\ Fields.sp f' = Fields.sp f
  /\ Fields.st f' = Fields.st f.
Proof.
  cbv zeta. unfold Force.exec_lspres. cbv zeta.
  destruct (String.eqb (Force.swlspres fo) "uflux"); [done |].
  destruct (String.eqb (Force.swlspres fo) "geo"); [| done].
  destruct (String.eqb (swspatialorder g) "2"); [done |].
  by destruct (String.eqb (swspatialorder g) "4").
Qed.

Lemma exec_lspres_off fo o4 g (f : Fields.t D) dt :
  Force.swlspres fo = "0"%string -> Force.exec_lspres fo o4 g f dt = f.
Proof. intros Hsw. unfold Force.exec_lspres. cbv zeta. by rewrite Hsw. Qed.

(** The sources leave the tendency of a scalar outside [lslist] alone. *)
Lemma exec_ls_other fo g (f : Fields.t D) name :
  name ∉ Force.lslist fo ->
  Fields.st (Force.exec_ls fo g f) !! name = Fields.st f !! name.
Proof.
  unfold Force.exec_ls.
  destruct (String.eqb (Force.swls fo) "1"); [| done].
  revert f. induction (Force.lslist fo) as [| it l IH]; intros f Hn; [done |].
  apply not_elem_of_cons in Hn as [Hne Hn].
  simpl. destruct (Fields.st f !! it) as [fld |] eqn:Hst,
                  (Force.lsprofs fo !! it) as [prof |]; try by apply IH.
  rewrite IH by done. simpl. by apply lookup_insert_ne.
Qed.

Lemma exec_wls_lookup fo g (f : Fields.t D) name fld s :
  Force.swwls fo = "1"%string ->
  Fields.st f !! name = Some fld -> Fields.sp f !! name = Some s ->
  Fields.st (Force.exec_wls fo g f) !! name
  = Some (Fields.with_data fld
            (Force.advec_wls_2nd g (Fields.data fld) (Fields.datamean s)
               (Force.wls fo) (dzhi g))).
Proof.
  intros Hsw Hst Hsp. unfold Force.exec_wls. rewrite Hsw. simpl.
  rewrite map_lookup_imap, Hst. simpl. by rewrite Hsp.
Qed.



End ForceFacts.

(** C9. With [swlspres = "uflux"], [Force::exec] adds the one body force
    [fbody] to [ut] at every index [n] of the [ncells] cells of the array:
    in the ghost cells as in the interior, each element changes by [fbody]. *)
Theorem exec_uflux_every_cell {D : Type} `{Arith D}
    (fo : Force.t D) (o4 : Force.O4 D) (g : Grid D) (f : Fields.t D) (dt : D) (n : Z) :
  Force.swlspres fo = "uflux"%string ->
  ncells g <= Z.of_nat (length (Fields.data (Fields.ut f))) ->
  0 <= n < ncells g ->
  rd (Fields.data (Fields.ut (Force.exec fo o4 g f dt))) n
  = (rd (Fields.data (Fields.ut f)) n
     + fbody fo g (Fields.data (Fields.ut f)) (Fields.data (Fields.u f)) (dz g) dt)%dbl.
Proof.
  intros Hsw Hlen Hn. rewrite exec_ut. unfold Force.exec_lspres. cbv zeta.
  rewrite Hsw. simpl. by apply calcFlux_cell.
Qed.

(** C7. At every interior cell the subsidence subtracts
    [wls[k] * (s[k] - s[k-1]) * dzhi[k]] from the tendency when
    [wls[k] > 0] and [wls[k] * (s[k+1] - s[k]) * dzhi[k+1]] when
    [wls[k] <= 0].  For [wls = 1], the mean profile [s[k] = k] and a
    tendency that is zero, the result is [- dzhi[k]] in the interior. *)
Theorem advec_wls_2nd_upwind (g : Grid R) (st s wls dzhi : list R) (i j k : Z) :
  grid_layout g ->
  Z.of_nat (length st) = ncells g ->
  kstart g <= k < kend g -> jstart g <= j < jend g -> istart g <= i < iend g ->
  let ijk := i + j * icells g + k * ijcells g in
  let st' := Force.advec_wls_2nd g st s wls dzhi in
  ((rd wls k > 0)%R ->
     rd st' ijk = (rd st ijk - rd wls k * (rd s k - rd s (k - 1)) * rd dzhi k)%R)
  /\ ((rd wls k <= 0)%R ->
        rd st' ijk
        = (rd st ijk - rd wls k * (rd s (k + 1) - rd s k) * rd dzhi (k + 1))%R)
  /\ (rd wls k = 1%R -> rd s (k - 1) = IZR (k - 1) -> rd s k = IZR k ->
       rd st ijk = 0%R ->
       rd st' ijk = (- rd dzhi k)%R).
Proof.
  intros Hg Hlen Hk Hj Hi ijk st'. subst ijk st'.
  rewrite (advec_wls_2nd_cell g st s wls dzhi i j k Hg Hlen Hk Hj Hi).
  simpl. split; [| split].
  - intros Hpos. destruct (Rlt_dec 0 (rd wls k)); [done | lra].
  - intros Hneg. destruct (Rlt_dec 0 (rd wls k)); [lra | done].
  - intros Hw Hs1 Hs0 Hst. rewrite Hw, Hs1, Hs0, Hst, minus_IZR.
    destruct (Rlt_dec 0 1); lra.
Qed.

Lemma advec_wls_2nd_upwind_witness :
  grid_layout (Sample.grid (D := R))
  /\ rd (Force.advec_wls_2nd Sample.grid (Sample.uniform 0%R) (Sample.ramp 4)
           (replicate 4 1%R) (dzhi Sample.grid)) 21
     = (- (1 / 2))%R.
Proof.
  split; [apply sample_grid_layout |].
  destruct (advec_wls_2nd_upwind Sample.grid (Sample.uniform 0%R) (Sample.ramp 4)
              (replicate 4 1%R) (dzhi Sample.grid) 1 1 1)
    as (_ & _ & Hone); try (simpl; lia); [apply sample_grid_layout |].
  apply Hone; reflexivity.
Defined.

Lemma exec_uflux_every_cell_witness :
  Force.swlspres (Sample.force (D := float)) = "uflux"%string
  /\ rd (Fields.data (Fields.ut (Force.exec Sample.force Sample.o4 Sample.grid
                                   Sample.fields 1%float))) 0
     = 5%float.
Proof.
  split; [reflexivity |].
  rewrite (exec_uflux_every_cell Sample.force Sample.o4 Sample.grid Sample.fields
             1%float 0); [| reflexivity | simpl; lia | simpl; lia].
  vm_compute. reflexivity.
Defined.

(** C10. With [swwls = "1"], [Force::exec] applies the subsidence to every
    entry of the map [st] of the tendencies of the scalars, each with the
    mean profile of the scalar of its own name; a scalar need not be in
    [lslist], and for one that is not the subsidence is all that [exec]
    does to its tendency.  The block does not touch [ut], [vt] or [wt],
    which [exec] then leaves as they are unless [swlspres] is set. *)
Theorem exec_wls_every_scalar {D : Type} `{Arith D}
    (fo : Force.t D) (o4 : Force.O4 D) (g : Grid D) (f : Fields.t D) (dt : D) :
  Force.swwls fo = "1"%string ->
  (forall name fld s,
      Fields.st f !! name = Some fld -> Fields.sp f !! name = Some s ->
      Fields.st (Force.exec_wls fo g f) !! name
      = Some (Fields.with_data fld
                (Force.advec_wls_2nd g (Fields.data fld) (Fields.datamean s)
                   (Force.wls fo) (dzhi g))))
  /\ (forall name fld s,
        name ∉ Force.lslist fo ->
        Fields.st f !! name = Some fld -> Fields.sp f !! name = Some s ->
        Fields.st (Force.exec fo o4 g f dt) !! name
        = Some (Fields.with_data fld
                  (Force.advec_wls_2nd g (Fields.data fld) (Fields.datamean s)
                     (Force.wls fo) (dzhi g))))
  /\ (Fields.ut (Force.exec_wls fo g f) = Fields.ut f
      /\ Fields.vt (Force.exec_wls fo g f) = Fields.vt f
      /\ Fields.wt (Force.exec_wls fo g f) = Fields.wt f)
  /\ (Force.swlspres fo = "0"%string ->
      Fields.ut (Force.exec fo o4 g f dt) = Fields.ut f
      /\ Fields.vt (Force.exec fo o4 g f dt) = Fields.vt f
      /\ Fields.wt (Force.exec fo o4 g f dt) = Fields.wt f).
Proof.
  intros Hsw. split; [| split; [| split]].
  - intros name fld s Hst Hsp. by apply exec_wls_lookup.
  - intros name fld s Hn Hst Hsp. unfold Force.exec.
    destruct (exec_lspres_frame fo o4 g f dt) as (_ & _ & _ & _ & Hsp1 & Hst1).
    destruct (exec_ls_frame fo g (Force.exec_lspres fo o4 g f dt))
      as (_ & _ & _ & _ & _ & _ & Hsp2).
    apply exec_wls_lookup; [done | |].
    + by rewrite exec_ls_other, Hst1.
    + by rewrite Hsp2, Hsp1.
  - by destruct (exec_wls_frame fo g f) as (_ & _ & _ & -> & -> & -> & _).
  - intros Hoff. unfold Force.exec. rewrite exec_lspres_off by done.
    destruct (exec_wls_frame fo g (Force.exec_ls fo g f))
      as (_ & _ & _ & -> & -> & -> & _).
    by destruct (exec_ls_frame fo g f) as (_ & _ & _ & -> & -> & -> & _).
Qed.

Lemma exec_wls_every_scalar_witness :
  Force.swwls (Sample.force (D := float)) = "1"%string
  /\ Fields.st (Force.exec_wls Sample.force Sample.grid Sample.fields) !! "s"%string
     = Some (Fields.with_data (Sample.field (Sample.uniform 0%float))
               (Force.advec_wls_2nd Sample.grid (Sample.uniform 0%float)
                  (Sample.ramp 4) (Force.wls Sample.force) (dzhi Sample.grid))).
Proof.
  split; [reflexivity |].
  destruct (exec_wls_every_scalar Sample.force Sample.o4 Sample.grid Sample.fields
              1%float) as (Hall & _); [reflexivity |].
  apply (Hall "s"%string (Sample.field (Sample.uniform 0%float))
           (Sample.field (Sample.uniform 0%float)));
    apply lookup_singleton_eq.
Defined.

(** ** The interpolation of the time-dependent profiles, in exact arithmetic *)

Section TimeDep.







End TimeDep.



(** ** The flux controller, in exact arithmetic *)

Section BulkFlux.

Lemma foldl_Rsum {A : Type} (F : A -> R) (l : list A) (a : R) :
  foldl (fun acc c => (acc + F c)%R) a l = (a + Rsum F l)%R.
Proof.
  unfold Rsum. revert a. induction l as [| c l IH]; intros a; simpl.
  - lra.
  - rewrite IH, (IH (0 + F c)%R). lra.
Qed.

Lemma Rsum_cons {A : Type} (F : A -> R) c l : Rsum F (c :: l) = (F c + Rsum F l)%R.
Proof. unfold Rsum at 1. simpl. rewrite foldl_Rsum. lra. Qed.

Lemma Rsum_app {A : Type} (F : A -> R) l1 l2 :
  Rsum F (l1 ++ l2) = (Rsum F l1 + Rsum F l2)%R.
Proof.
  induction l1 as [| c l1 IH]; simpl.
  - unfold Rsum at 2. simpl. lra.
  - rewrite !Rsum_cons, IH. lra.
Qed.

Lemma Rsum_ext {A : Type} (F G : A -> R) l :
  (forall c, c ∈ l -> F c = G c) -> Rsum F l = Rsum G l.
Proof.
  induction l as [| c l IH]; intros Hext; [done |].
  rewrite !Rsum_cons, IH.
  - rewrite Hext; [done | apply list_elem_of_here].
  - intros c' Hc. apply Hext. by apply list_elem_of_further.
Qed.

Lemma Rsum_linear {A : Type} (F G : A -> R) (a b : R) l :
  Rsum (fun c => (F c + a * G c + b)%R) l
  = (Rsum F l + a * Rsum G l + b * Rsum (fun _ => 1%R) l)%R.
Proof.
  induction l as [| c l IH].
  - unfold Rsum. simpl. lra.
  - rewrite !Rsum_cons, IH. lra.
Qed.

Lemma Rsum_scale {A : Type} (F : A -> R) (a : R) l :
  Rsum (fun c => (F c * a)%R) l = (Rsum F l * a)%R.
Proof.
  induction l as [| c l IH].
  - unfold Rsum. simpl. lra.
  - rewrite !Rsum_cons, IH. lra.
Qed.

Lemma Rsum_bind {A B : Type} (F : B -> R) (h : A -> list B) l :
  Rsum F (l ≫= h) = Rsum (fun x => Rsum F (h x)) l.
Proof.
  induction l as [| x l IH]; csimpl; [done |].
  by rewrite Rsum_app, Rsum_cons, IH.
Qed.

Lemma Rsum_const_seqZ (a : R) lo n :
  0 <= n -> Rsum (fun _ : Z => a) (seqZ lo n) = (IZR n * a)%R.
Proof.
  intros Hn. replace n with (Z.of_nat (Z.to_nat n)) by lia.
  generalize (Z.to_nat n) as m. clear Hn n.
  induction m as [| m IH].
  - change (Z.of_nat 0) with 0. unfold Rsum. simpl. lra.
  - rewrite seqZ_S, Rsum_app, IH, Rsum_cons. unfold Rsum at 1. simpl foldl.
    rewrite Nat2Z.inj_succ, succ_IZR. lra.
Qed.

(** The weighted volume of the interior. *)
Lemma Rsum_interior_dz (g : Grid R) :
  single_column g ->
  Rsum (fun '(i, j, k) => rd (dz g) k) (interior g)
  = (IZR (itot g * jtot g) * zsize g)%R.
Proof.
  intros (_ & Hi & Hj & Hi0 & Hj0 & Hz & _).
  unfold interior, box. rewrite Rsum_bind.
  rewrite (Rsum_ext _ (fun k => (rd (dz g) k * (IZR (jtot g) * IZR (itot g)))%R)).
  - rewrite Rsum_scale. unfold Rsum at 1. rewrite Hz, mult_IZR. lra.
  - intros k _. rewrite Rsum_bind.
    rewrite (Rsum_ext _ (fun _ => (IZR (itot g) * rd (dz g) k)%R)).
    + rewrite Rsum_const_seqZ by lia. rewrite Hj. lra.
    + intros j _. rewrite Rsum_bind.
      rewrite (Rsum_ext _ (fun _ => rd (dz g) k)).
      * rewrite Rsum_const_seqZ by lia. by rewrite Hi.
      * intros i _. unfold Rsum. simpl. lra.
Qed.

Lemma weighted_sum_Rsum (g : Grid R) (x dz : list R) :
  weighted_sum g x dz
  = Rsum (fun '(i, j, k) => (rd x (i + j * icells g + k * ijcells g) * rd dz k)%R)
      (interior g).
Proof.
  unfold weighted_sum, Rsum. apply (foldl_proj (fun a => a)).
  by intros a [[i j] k] _.
Qed.

Lemma rd_euler (u ut : list R) dt n :
  0 <= n < Z.of_nat (length u) -> 0 <= n < Z.of_nat (length ut) ->
  rd (euler u ut dt) n = (rd u n + dt * rd ut n)%R.
Proof.
  intros Hu Hut. unfold rd, euler.
  destruct (Z.ltb_spec n 0); [lia |].
  rewrite lookup_zip_with.
  destruct (lookup_lt_is_Some_2 u (Z.to_nat n)) as [a ->]; [lia |].
  destruct (lookup_lt_is_Some_2 ut (Z.to_nat n)) as [b ->]; [lia |].
  reflexivity.
Qed.

Lemma rd_translate (u : list R) c n :
  0 <= n < Z.of_nat (length u) -> rd (translate u c) n = (rd u n + c)%R.
Proof.
  intros Hu. unfold rd, translate.
  destruct (Z.ltb_spec n 0); [lia |].
  rewrite list_lookup_fmap.
  destruct (lookup_lt_is_Some_2 u (Z.to_nat n)) as [a ->]; [lia |].
  reflexivity.
Qed.

End BulkFlux.

(** C1. With [swlspres = "uflux"], [Force::exec] adds to every cell of
    [ut] the one body force
    [fbody = (uflux - <u> - utrans) / dt - <ut>], where [<u>] and [<ut>]
    are the sums of [u * dz] and [ut * dz] over the interior divided by
    [itot * jtot * zsize].  After the Euler update [u += dt * ut] with the
    new tendency the bulk mean of [u + utrans] is [uflux], in exact
    arithmetic. *)
Theorem exec_uflux_bulk_velocity
    (fo : Force.t R) (o4 : Force.O4 R) (g : Grid R) (f : Fields.t R) (dt : R) :
  let u := Fields.data (Fields.u f) in
  let ut := Fields.data (Fields.ut f) in
  let ut' := Fields.data (Fields.ut (Force.exec fo o4 g f dt)) in
  let force := ((Force.uflux fo - bulk_mean g u (dz g) - utrans g) / dt
                - bulk_mean g ut (dz g))%R in
  Force.swlspres fo = "uflux"%string ->
  grid_layout g -> single_column g ->
  Z.of_nat (length u) = ncells g -> Z.of_nat (length ut) = ncells g ->
  (dt > 0)%R ->
  (forall n, 0 <= n < ncells g -> rd ut' n = (rd ut n + force)%R)
  /\ bulk_mean g (translate (euler u ut' dt) (utrans g)) (dz g) = Force.uflux fo.
Proof.
  intros u ut ut' force Hsw Hg Hsc Hu Hut Hdt.
  assert (Hcell : forall n, 0 <= n < ncells g -> rd ut' n = (rd ut n + force)%R).
  { intros n Hn. subst ut' ut force.
    rewrite exec_ut. unfold Force.exec_lspres. cbv zeta. rewrite Hsw. simpl.
    rewrite calcFlux_cell; [reflexivity | lia | done]. }
  split; [done |].
  assert (Hlen' : length ut' = length ut).
  { subst ut'. rewrite exec_ut. unfold Force.exec_lspres. cbv zeta.
    rewrite Hsw. simpl. apply calcFlux_length. }
  pose proof Hg as (Hi0 & Hi1 & Hj0 & Hj1 & Hk0 & Hk1 & Hij & Hn).
  pose proof Hsc as (Hsum & Hi & Hj & Hipos & Hjpos & Hz & Hzpos).
  pose proof (Rsum_interior_dz g Hsc) as Hvol.
  assert (Hvpos : (IZR (itot g * jtot g) * zsize g > 0)%R).
  { apply Rmult_gt_0_compat; [| done]. apply IZR_lt. nia. }
  set (V := (IZR (itot g * jtot g) * zsize g)%R) in *.
  (* the cells of the interior after the update *)
  assert (Hnew : forall c, c ∈ interior g ->
            (let '(i, j, k) := c in
             (rd (translate (euler u ut' dt) (utrans g))
                (i + j * icells g + k * ijcells g) * rd (dz g) k)%R)
            = (let '(i, j, k) := c in
               ((rd u (i + j * icells g + k * ijcells g) * rd (dz g) k)
                + dt * (rd ut (i + j * icells g + k * ijcells g) * rd (dz g) k)
                + (dt * force + utrans g)
                  * (let '(_, _, k) := c in rd (dz g) k)))%R).
  { intros [[i j] k] Hc. apply elem_of_interior in Hc.
    assert (Hr : 0 <= i + j * icells g + k * ijcells g < ncells g).
    { rewrite Hn, Hij.
      apply (cell_index_range (icells g) (jcells g) (kcells g) (i, j, k));
        simpl; lia. }
    rewrite rd_translate, rd_euler, Hcell; try lia.
    - ring.
    - unfold euler. rewrite length_zip_with. lia. }
  unfold bulk_mean at 1. rewrite Hsum, weighted_sum_Rsum.
  rewrite (Rsum_ext _ _ _ Hnew).
  rewrite (Rsum_ext _
             (fun c => ((let '(i, j, k) := c in
                         rd u (i + j * icells g + k * ijcells g) * rd (dz g) k)
                        + dt * (let '(i, j, k) := c in
                                rd ut (i + j * icells g + k * ijcells g) * rd (dz g) k)
                        + 0
                        + ((let '(_, _, k) := c in rd (dz g) k)
                           * (dt * force + utrans g)))%R)).
  2:{ intros [[i j] k] _. ring. }
  set (Fu := fun c : Z * Z * Z =>
               let '(i, j, k) := c in
               (rd u (i + j * icells g + k * ijcells g) * rd (dz g) k)%R).
  set (Fut := fun c : Z * Z * Z =>
                let '(i, j, k) := c in
                (rd ut (i + j * icells g + k * ijcells g) * rd (dz g) k)%R).
  set (Fdz := fun c : Z * Z * Z => let '(_, _, k) := c in rd (dz g) k).
  assert (Hsplit : forall (F G : Z * Z * Z -> R) l,
             Rsum (fun c => (F c + G c)%R) l = (Rsum F l + Rsum G l)%R).
  { intros F G l. induction l as [| c l IH].
    - unfold Rsum. simpl. lra.
    - rewrite !Rsum_cons, IH. lra. }
  rewrite (Hsplit (fun c => (Fu c + dt * Fut c + 0)%R)
                  (fun c => (Fdz c * (dt * force + utrans g))%R)).
  rewrite Rsum_linear, Rsum_scale.
  assert (Hdz : Rsum Fdz (interior g) = V).
  { rewrite <- Hvol. apply Rsum_ext. by intros [[i j] k] _. }
  rewrite Hdz.
  assert (Hmu : bulk_mean g u (dz g) = (Rsum Fu (interior g) / V)%R).
  { unfold bulk_mean. by rewrite Hsum, weighted_sum_Rsum. }
  assert (Hmut : bulk_mean g ut (dz g) = (Rsum Fut (interior g) / V)%R).
  { unfold bulk_mean. by rewrite Hsum, weighted_sum_Rsum. }
  subst force. rewrite Hmu, Hmut. simpl. fold V. field. lra.
Qed.

Lemma exec_uflux_bulk_velocity_witness :
  single_column (Sample.grid (D := R))
  /\ bulk_mean Sample.grid
       (translate
          (euler (Sample.uniform 5%R)
             (Fields.data (Fields.ut (Force.exec Sample.force Sample.o4 Sample.grid
                                        Sample.fields 1%R))) 1%R)
          0%R)
       (dz Sample.grid)
     = 10%R.
Proof.
  assert (Hsc : single_column (Sample.grid (D := R))).
  { unfold single_column. simpl.
    repeat split; try lia; try lra.
    change (0 + 2 + 2 = 4)%R. lra. }
  split; [exact Hsc |].
  destruct (exec_uflux_bulk_velocity Sample.force Sample.o4 Sample.grid Sample.fields
              1%R) as (_ & Hbulk);
    try reflexivity; try exact Hsc; [apply sample_grid_layout | lra |].
  exact Hbulk.
Defined.

(** ** Loops that store values which do not depend on the array *)

Section Writes.
Context {D : Type} `{Arith D}.

Lemma writes_app (a : list D) W1 W2 :
  writes a (W1 ++ W2) = writes (writes a W1) W2.
Proof. apply foldl_app. Qed.

Lemma writes_length (a : list D) W : length (writes a W) = length a.
Proof.
  revert a. induction W as [| w W IH]; intros a; [done |].
  simpl. rewrite IH. apply length_wr.
Qed.

(** A cell holds the value of the stores to it when these agree. *)
Lemma writes_last (a : list D) W n v :
  0 <= n < Z.of_nat (length a) ->
  (n, v) ∈ W -> (forall v', (n, v') ∈ W -> v' = v) ->
  rd (writes a W) n = v.
Proof.
  intros Hn. induction W as [| w W IH] using rev_ind; intros Hin Huniq.
  - by apply elem_of_nil in Hin.
  - rewrite writes_app. simpl. destruct w as [m x]. simpl.
    destruct (Z.eq_dec m n) as [-> | Hne].
    + rewrite rd_wr_eq by (rewrite writes_length; lia).
      apply Huniq. apply elem_of_app. right. apply list_elem_of_here.
    + rewrite rd_wr_ne by done. apply IH.
      * apply elem_of_app in Hin as [Hin | Hin]; [done |].
        apply list_elem_of_singleton in Hin. congruence.
      * intros v' Hv'. apply Huniq. apply elem_of_app. by left.
Qed.

Lemma writes_other (a : list D) W n :
  (forall v', (n, v') ∉ W) -> rd (writes a W) n = rd a n.
Proof.
  revert a. induction W as [| [m x] W IH]; intros a Hout; [done |].
  simpl. rewrite IH.
  - apply rd_wr_ne. intros ->. apply (Hout x). apply list_elem_of_here.
  - intros v' Hv'. apply (Hout v'). by apply list_elem_of_further.
Qed.

Context {St : Type}.
Variable pr : St -> list D.

Lemma foldl_writes {X : Type} (body : X -> St -> St) (W : X -> list (Z * D)) l s :
  (forall x t, pr (body x t) = writes (pr t) (W x)) ->
  pr (foldl (fun s x => body x s) s l) = writes (pr s) (l ≫= W).
Proof.
  intros Hbody. revert s. induction l as [| x l IH]; intros s; [done |].
  csimpl. by rewrite IH, Hbody, writes_app.
Qed.

Lemma foldl_frame {X : Type} (body : X -> St -> St) l s :
  (forall x t, pr (body x t) = pr t) ->
  pr (foldl (fun s x => body x s) s l) = pr s.
Proof.
  intros Hbody. revert s. induction l as [| x l IH]; intros s; [done |].
  simpl. by rewrite IH, Hbody.
Qed.

Lemma elem_of_box2 jlo jhi ilo ihi i j :
  (i, j) ∈ box2 jlo jhi ilo ihi <-> jlo <= j < jhi /\ ilo <= i < ihi.
Proof.
  unfold box2. rewrite list_elem_of_bind. split.
  - intros (j' & Hin & Hj). rewrite elem_of_seqZ in Hj.
    rewrite list_elem_of_bind in Hin. destruct Hin as (i' & Hin & Hi).
    rewrite elem_of_seqZ in Hi.
    apply list_elem_of_singleton in Hin. injection Hin as -> ->. lia.
  - intros (Hj & Hi). exists j. split; [| apply elem_of_seqZ; lia].
    apply list_elem_of_bind. exists i. split; [| apply elem_of_seqZ; lia].
    apply list_elem_of_singleton. done.
Qed.

Lemma for2_box jlo jhi ilo ihi (body : Z -> Z -> St -> St) s :
  for_ jlo jhi (fun j => for_ ilo ihi (fun i => body i j)) s
  = foldl (fun s '(i, j) => body i j s) s (box2 jlo jhi ilo ihi).
Proof.
  unfold box2, for_. rewrite foldl_bind.
  revert s. induction (seqZ jlo (jhi - jlo)) as [| j js IHj]; intros s; [done |].
  simpl. rewrite <- IHj. f_equal. by rewrite foldl_bind.
Qed.

Lemma for2_writes jlo jhi ilo ihi (body : Z -> Z -> St -> St)
    (W : Z -> Z -> list (Z * D)) s :
  (forall i j t, pr (body i j t) = writes (pr t) (W i j)) ->
  pr (for_ jlo jhi (fun j => for_ ilo ihi (fun i => body i j)) s)
  = writes (pr s) (box2 jlo jhi ilo ihi ≫= fun '(i, j) => W i j).
Proof.
  intros Hbody. rewrite for2_box.
  apply (foldl_writes (fun x t => let '(i, j) := x in body i j t)
           (fun '(i, j) => W i j)).
  intros [i j] t. apply Hbody.
Qed.

Lemma for2_frame jlo jhi ilo ihi (body : Z -> Z -> St -> St) s :
  (forall i j t, pr (body i j t) = pr t) ->
  pr (for_ jlo jhi (fun j => for_ ilo ihi (fun i => body i j)) s) = pr s.
Proof.
  intros Hbody. rewrite for2_box.
  apply (foldl_frame (fun x t => let '(i, j) := x in body i j t)).
  intros [i j] t. apply Hbody.
Qed.

Lemma for3_writes klo khi jlo jhi ilo ihi (body : Z -> Z -> Z -> St -> St)
    (W : Z -> Z -> Z -> list (Z * D)) s :
  (forall i j k t, pr (body i j k t) = writes (pr t) (W i j k)) ->
  pr (for_ klo khi (fun k => for_ jlo jhi (fun j => for_ ilo ihi (fun i => body i j k))) s)
  = writes (pr s) (box klo khi jlo jhi ilo ihi ≫= fun '(i, j, k) => W i j k).
Proof.
  intros Hbody. rewrite for3_box.
  apply (foldl_writes (fun x t => let '(i, j, k) := x in body i j k t)
           (fun '(i, j, k) => W i j k)).
  intros [[i j] k] t. apply Hbody.
Qed.

End Writes.

(** ** Properties of the fourth-order solver *)

Section Pres4Facts.
Context {D : Type} `{Arith D}.
Local Open Scope dbl_scope.

Lemma elem_of_box2_bind {X : Type} (F : Z * Z -> list X) jlo jhi ilo ihi x :
  x ∈ box2 jlo jhi ilo ihi ≫= F
  <-> exists i j, (jlo <= j < jhi)%Z /\ (ilo <= i < ihi)%Z /\ x ∈ F (i, j).
Proof.
  rewrite list_elem_of_bind. split.
  - intros ([i j] & Hx & Hin). apply elem_of_box2 in Hin. exists i, j. tauto.
  - intros (i & j & Hj & Hi & Hx). exists (i, j). split; [done |].
    by apply elem_of_box2.
Qed.

Lemma elem_of_box_bind {X : Type} (F : Z * Z * Z -> list X) klo khi jlo jhi ilo ihi x :
  x ∈ box klo khi jlo jhi ilo ihi ≫= F
  <-> exists i j k, (klo <= k < khi)%Z /\ (jlo <= j < jhi)%Z /\ (ilo <= i < ihi)%Z
                    /\ x ∈ F (i, j, k).
Proof.
  rewrite list_elem_of_bind. split.
  - intros ([[i j] k] & Hx & Hin). apply elem_of_box in Hin. exists i, j, k. tauto.
  - intros (i & j & k & Hk & Hj & Hi & Hx). exists (i, j, k). split; [done |].
    by apply elem_of_box.
Qed.

Lemma slab_index_inj ib js i j r i' j' r' :
  (0 <= i < ib)%Z -> (0 <= j < js)%Z -> (0 <= i' < ib)%Z -> (0 <= j' < js)%Z ->
  slab_index ib js i j r = slab_index ib js i' j' r' ->
  i = i' /\ j = j' /\ r = r'.
Proof.
  intros Hi Hj Hi' Hj' Heq.
  assert (Hc : (i, j, r) = (i', j', r'))
    by (apply (cell_index_inj ib js); simpl; try lia; exact Heq).
  by injection Hc.
Qed.

Lemma slab_index_range ib js rows i j r :
  (0 <= i < ib)%Z -> (0 <= j < js)%Z -> (0 <= r < rows)%Z ->
  (0 <= slab_index ib js i j r < ib * js * rows)%Z.
Proof.
  intros Hi Hj Hr.
  apply (cell_index_range ib js rows (i, j, r)); simpl; lia.
Qed.

Lemma slab_fill_rows ib js kmax b0 b1 mid t2 t3 a i j :
  (0 <= i < ib)%Z -> (0 <= j < js)%Z -> (0 <= kmax)%Z ->
  (ib * js * (kmax + 4) <= Z.of_nat (length a))%Z ->
  let a' := slab_fill ib js kmax b0 b1 mid t2 t3 a in
  rd a' (slab_index ib js i j 0) = b0
  /\ rd a' (slab_index ib js i j 1) = b1
  /\ rd a' (slab_index ib js i j (kmax + 2)) = t2 i j
  /\ rd a' (slab_index ib js i j (kmax + 3)) = t3 i j.
Proof.
  intros Hi Hj Hk Hlen. cbv zeta. unfold slab_fill. cbv zeta.
  assert (Hrange : forall r, (0 <= r < kmax + 4)%Z ->
            (0 <= slab_index ib js i j r < Z.of_nat (length a))%Z).
  { intros r Hr. pose proof (slab_index_range ib js (kmax + 4) i j r Hi Hj Hr). lia. }
  (* an index of another column or another row is not the one of [(i, j, r)] *)
  assert (Hinj : forall r i' j' r',
            (0 <= i' < ib)%Z -> (0 <= j' < js)%Z ->
            slab_index ib js i j r = slab_index ib js i' j' r' ->
            i' = i /\ j' = j /\ r' = r).
  { intros r i' j' r' Hi' Hj' Heq.
    destruct (slab_index_inj ib js i j r i' j' r' Hi Hj Hi' Hj' Heq) as (-> & -> & ->).
    done. }
  split; [| split; [| split]].
  - (* row 0: the first nest stores it, the others do not reach it *)
    rewrite writes_other.
    2:{ intros v' Hin. apply elem_of_box2_bind in Hin as (i' & j' & Hj' & Hi' & Hin).
        apply elem_of_cons in Hin as [Hin | Hin].
        - injection Hin as Hn _.
          destruct (Hinj 0%Z i' j' (kmax + 2)%Z Hi' Hj') as (_ & _ & ?);
            [unfold slab_index in *; lia | lia].
        - apply list_elem_of_singleton in Hin. injection Hin as Hn _.
          destruct (Hinj 0%Z i' j' (kmax + 3)%Z Hi' Hj') as (_ & _ & ?);
            [unfold slab_index in *; lia | lia]. }
    rewrite writes_other.
    2:{ intros v' Hin.
        apply elem_of_box_bind in Hin as (i' & j' & k' & Hk' & Hj' & Hi' & Hin).
        apply list_elem_of_singleton in Hin. injection Hin as Hn _.
        destruct (Hinj 0%Z i' j' (k' + 2)%Z Hi' Hj') as (_ & _ & ?);
          [unfold slab_index in *; lia | lia]. }
    rewrite writes_other.
    2:{ intros v' Hin. apply elem_of_box2_bind in Hin as (i' & j' & Hj' & Hi' & Hin).
        apply list_elem_of_singleton in Hin. injection Hin as Hn _.
        destruct (Hinj 0%Z i' j' 1%Z Hi' Hj') as (_ & _ & ?);
          [unfold slab_index in *; lia | lia]. }
    apply writes_last.
    + apply Hrange. lia.
    + apply elem_of_box2_bind. exists i, j. split; [lia |]. split; [lia |].
      apply list_elem_of_singleton. f_equal. unfold slab_index. lia.
    + intros v' Hin. apply elem_of_box2_bind in Hin as (i' & j' & Hj' & Hi' & Hin).
      apply list_elem_of_singleton in Hin. by injection Hin as _ ->.
  - (* row 1 *)
    rewrite writes_other.
    2:{ intros v' Hin. apply elem_of_box2_bind in Hin as (i' & j' & Hj' & Hi' & Hin).
        apply elem_of_cons in Hin as [Hin | Hin].
        - injection Hin as Hn _.
          destruct (Hinj 1%Z i' j' (kmax + 2)%Z Hi' Hj') as (_ & _ & ?);
            [unfold slab_index in *; lia | lia].
        - apply list_elem_of_singleton in Hin. injection Hin as Hn _.
          destruct (Hinj 1%Z i' j' (kmax + 3)%Z Hi' Hj') as (_ & _ & ?);
            [unfold slab_index in *; lia | lia]. }
    rewrite writes_other.
    2:{ intros v' Hin.
        apply elem_of_box_bind in Hin as (i' & j' & k' & Hk' & Hj' & Hi' & Hin).
        apply list_elem_of_singleton in Hin. injection Hin as Hn _.
        destruct (Hinj 1%Z i' j' (k' + 2)%Z Hi' Hj') as (_ & _ & ?);
          [unfold slab_index in *; lia | lia]. }
    apply writes_last.
    + rewrite writes_length. apply Hrange. lia.
    + apply elem_of_box2_bind. exists i, j. split; [lia |]. split; [lia |].
      apply list_elem_of_singleton. f_equal. unfold slab_index. lia.
    + intros v' Hin. apply elem_of_box2_bind in Hin as (i' & j' & Hj' & Hi' & Hin).
      apply list_elem_of_singleton in Hin. by injection Hin as _ ->.
  - (* row kmax + 2 *)
    apply writes_last.
    + rewrite !writes_length. apply Hrange. lia.
    + apply elem_of_box2_bind. exists i, j. split; [lia |]. split; [lia |].
      apply elem_of_cons. left. f_equal. unfold slab_index. lia.
    + intros v' Hin. apply elem_of_box2_bind in Hin as (i' & j' & Hj' & Hi' & Hin).
      apply elem_of_cons in Hin as [Hin | Hin].
      * injection Hin as Hn ->.
        destruct (Hinj (kmax + 2)%Z i' j' (kmax + 2)%Z Hi' Hj') as (-> & -> & _);
          [unfold slab_index in *; lia | done].
      * apply list_elem_of_singleton in Hin. injection Hin as Hn _.
        destruct (Hinj (kmax + 2)%Z i' j' (kmax + 3)%Z Hi' Hj') as (_ & _ & ?);
          [unfold slab_index in *; lia | lia].
  - (* row kmax + 3 *)
    apply writes_last.
    + rewrite !writes_length. apply Hrange. lia.
    + apply elem_of_box2_bind. exists i, j. split; [lia |]. split; [lia |].
      apply elem_of_cons. right. apply list_elem_of_singleton.
      f_equal. unfold slab_index. lia.
    + intros v' Hin. apply elem_of_box2_bind in Hin as (i' & j' & Hj' & Hi' & Hin).
      apply elem_of_cons in Hin as [Hin | Hin].
      * injection Hin as Hn _.
        destruct (Hinj (kmax + 3)%Z i' j' (kmax + 2)%Z Hi' Hj') as (_ & _ & ?);
          [unfold slab_index in *; lia | lia].
      * apply list_elem_of_singleton in Hin. injection Hin as Hn ->.
        destruct (Hinj (kmax + 3)%Z i' j' (kmax + 3)%Z Hi' Hj') as (-> & -> & _);
          [unfold slab_index in *; lia | done].
Qed.

Ltac setup_stage pr :=
  first [ erewrite (for3_writes pr)
        | rewrite (for2_frame pr) by (intros; try destruct (_ && _); reflexivity)
        | erewrite (for2_writes pr) ].

Ltac setup_stages pr :=
  setup_stage pr; [ setup_stage pr; [ setup_stage pr; [ setup_stage pr;
    [ setup_stage pr; [ reflexivity | .. ] | .. ] | .. ] | .. ] | .. ];
  intros; unfold zero_mode; try destruct (_ && _); reflexivity.

Lemma solve_setup_m1 g mx my p m1 m2 m3 m4 m5 m6 m7 bmati bmatj jslice n t :
  Pres4.m1temp (Pres4.solve_setup g mx my p m1 m2 m3 m4 m5 m6 m7 bmati bmatj jslice n t)
  = slab_fill (iblock g) jslice (kmax g) (dofZ 0) (dofZ 0)
      (fun _ _ k => rd m1 k)
      (fun _ _ => dofZ 0)
      (fun i j => if zero_mode g mx my jslice n i j then dofZ (-2) else dofZ (-1))
      (Pres4.m1temp t).
Proof.
  unfold Pres4.solve_setup, slab_fill. cbv zeta. setup_stages (@Pres4.m1temp D).
Qed.

Lemma solve_setup_m2 g mx my p m1 m2 m3 m4 m5 m6 m7 bmati bmatj jslice n t :
  Pres4.m2temp (Pres4.solve_setup g mx my p m1 m2 m3 m4 m5 m6 m7 bmati bmatj jslice n t)
  = slab_fill (iblock g) jslice (kmax g) (dofZ 0) (dofZ 0)
      (fun _ _ k => rd m2 k)
      (fun i j => if zero_mode g mx my jslice n i j then dofZ (-1) / dofZ 3 else dofZ 0)
      (fun i j => if zero_mode g mx my jslice n i j then dofZ 9 else dofZ 0)
      (Pres4.m2temp t).
Proof.
  unfold Pres4.solve_setup, slab_fill. cbv zeta. setup_stages (@Pres4.m2temp D).
Qed.

Lemma solve_setup_m3 g mx my p m1 m2 m3 m4 m5 m6 m7 bmati bmatj jslice n t :
  Pres4.m3temp (Pres4.solve_setup g mx my p m1 m2 m3 m4 m5 m6 m7 bmati bmatj jslice n t)
  = slab_fill (iblock g) jslice (kmax g) (dofZ 0) (dofZ 0)
      (fun _ _ k => rd m3 k)
      (fun i j => if zero_mode g mx my jslice n i j then dofZ 2 else dofZ (-1))
      (fun _ _ => dofZ 0)
      (Pres4.m3temp t).
Proof.
  unfold Pres4.solve_setup, slab_fill. cbv zeta. setup_stages (@Pres4.m3temp D).
Qed.

Lemma solve_setup_m4 g mx my p m1 m2 m3 m4 m5 m6 m7 bmati bmatj jslice n t :
  Pres4.m4temp (Pres4.solve_setup g mx my p m1 m2 m3 m4 m5 m6 m7 bmati bmatj jslice n t)
  = slab_fill (iblock g) jslice (kmax g) (dofZ 1) (dofZ 1)
      (fun i j k => rd m4 k + rd bmati (my * iblock g + i) + rd bmatj (mx * jblock g + n * jslice + j))
      (fun _ _ => dofZ 1)
      (fun _ _ => dofZ 1)
      (Pres4.m4temp t).
Proof.
  unfold Pres4.solve_setup, slab_fill. cbv zeta. setup_stages (@Pres4.m4temp D).
Qed.

Lemma solve_setup_m5 g mx my p m1 m2 m3 m4 m5 m6 m7 bmati bmatj jslice n t :
  Pres4.m5temp (Pres4.solve_setup g mx my p m1 m2 m3 m4 m5 m6 m7 bmati bmatj jslice n t)
  = slab_fill (iblock g) jslice (kmax g) (dofZ 0) (dofZ (-1))
      (fun _ _ k => rd m5 k) (fun _ _ => dofZ 0) (fun _ _ => dofZ 0)
      (Pres4.m5temp t).
Proof.
  unfold Pres4.solve_setup, slab_fill. cbv zeta. setup_stages (@Pres4.m5temp D).
Qed.

Lemma solve_setup_m6 g mx my p m1 m2 m3 m4 m5 m6 m7 bmati bmatj jslice n t :
  Pres4.m6temp (Pres4.solve_setup g mx my p m1 m2 m3 m4 m5 m6 m7 bmati bmatj jslice n t)
  = slab_fill (iblock g) jslice (kmax g) (dofZ 0) (dofZ 0)
      (fun _ _ k => rd m6 k) (fun _ _ => dofZ 0) (fun _ _ => dofZ 0)
      (Pres4.m6temp t).
Proof.
  unfold Pres4.solve_setup, slab_fill. cbv zeta. setup_stages (@Pres4.m6temp D).
Qed.

Lemma solve_setup_m7 g mx my p m1 m2 m3 m4 m5 m6 m7 bmati bmatj jslice n t :
  Pres4.m7temp (Pres4.solve_setup g mx my p m1 m2 m3 m4 m5 m6 m7 bmati bmatj jslice n t)
  = slab_fill (iblock g) jslice (kmax g) (dofZ (-1)) (dofZ 0)
      (fun _ _ k => rd m7 k) (fun _ _ => dofZ 0) (fun _ _ => dofZ 0)
      (Pres4.m7temp t).
Proof.
  unfold Pres4.solve_setup, slab_fill. cbv zeta. setup_stages (@Pres4.m7temp D).
Qed.

Lemma solve_setup_p g mx my p m1 m2 m3 m4 m5 m6 m7 bmati bmatj jslice n t :
  Pres4.ptemp (Pres4.solve_setup g mx my p m1 m2 m3 m4 m5 m6 m7 bmati bmatj jslice n t)
  = slab_fill (iblock g) jslice (kmax g) (dofZ 0) (dofZ 0)
      (fun i j k => rd p (i + (j + n * jslice) * iblock g + k * (iblock g * jblock g)))
      (fun _ _ => dofZ 0) (fun _ _ => dofZ 0)
      (Pres4.ptemp t).
Proof.
  unfold Pres4.solve_setup, slab_fill. cbv zeta. setup_stages (@Pres4.ptemp D).
Qed.

End Pres4Facts.

(** C5. In the systems that [Pres_4::solve] sets up, the two ghost rows at
    the bottom of every column are [(m4 = 1, m7 = -1)] and
    [(m4 = 1, m5 = -1)], all other entries zero.  The two ghost rows at
    the top are [(m2 = -1/3, m3 = 2, m4 = 1)] and
    [(m1 = -2, m2 = 9, m4 = 1)] when the wave number of the column is
    zero, [iindex = mpicoordy * iblock + i = 0] and
    [jindex = mpicoordx * jblock + n * jslice + j = 0], and
    [(m3 = -1, m4 = 1)] and [(m1 = -1, m4 = 1)] for every other wave
    number. *)
Theorem solve_setup_ghost_rows {D : Type} `{Arith D}
    (g : Grid D) (mpicoordx mpicoordy : Z)
    (p m1 m2 m3 m4 m5 m6 m7 bmati bmatj : list D) (jslice n : Z) (t : Pres4.hepta)
    (i j : Z) :
  let t' := Pres4.solve_setup g mpicoordx mpicoordy p m1 m2 m3 m4 m5 m6 m7
              bmati bmatj jslice n t in
  let row r := i + j * iblock g + r * (iblock g * jslice) in
  let iindex := mpicoordy * iblock g + i in
  let jindex := mpicoordx * jblock g + n * jslice + j in
  let o := dofZ 0 in
  0 <= i < iblock g -> 0 <= j < jslice -> 0 <= kmax g ->
  slab_rows g jslice (kmax g + 4) t ->
  coefficients t' (row 0) = (o, o, o, dofZ 1, o, o, dofZ (-1))
  /\ coefficients t' (row 1) = (o, o, o, dofZ 1, dofZ (-1), o, o)
  /\ (iindex = 0 /\ jindex = 0 ->
      coefficients t' (row (kmax g + 2))
      = (o, (dofZ (-1) / dofZ 3)%dbl, dofZ 2, dofZ 1, o, o, o)
      /\ coefficients t' (row (kmax g + 3)) = (dofZ (-2), dofZ 9, o, dofZ 1, o, o, o))
  /\ (~ (iindex = 0 /\ jindex = 0) ->
      coefficients t' (row (kmax g + 2)) = (o, o, dofZ (-1), dofZ 1, o, o, o)
      /\ coefficients t' (row (kmax g + 3)) = (dofZ (-1), o, o, dofZ 1, o, o, o)).
Proof.
  intros t' row iindex jindex o Hi Hj Hk
    (H1 & H2 & H3 & H4 & H5 & H6 & H7 & _).
  cbv zeta in H1, H2, H3, H4, H5, H6, H7.
  pose proof (slab_fill_rows (iblock g) jslice (kmax g) (dofZ 0) (dofZ 0)
                (fun _ _ k => rd m1 k) (fun _ _ => dofZ 0)
                (fun i j => if zero_mode g mpicoordx mpicoordy jslice n i j
                            then dofZ (-2) else dofZ (-1))
                (Pres4.m1temp t) i j Hi Hj Hk H1) as (E10 & E11 & E12 & E13).
  pose proof (slab_fill_rows (iblock g) jslice (kmax g) (dofZ 0) (dofZ 0)
                (fun _ _ k => rd m2 k)
                (fun i j => if zero_mode g mpicoordx mpicoordy jslice n i j
                            then (dofZ (-1) / dofZ 3)%dbl else dofZ 0)
                (fun i j => if zero_mode g mpicoordx mpicoordy jslice n i j
                            then dofZ 9 else dofZ 0)
                (Pres4.m2temp t) i j Hi Hj Hk H2) as (E20 & E21 & E22 & E23).
  pose proof (slab_fill_rows (iblock g) jslice (kmax g) (dofZ 0) (dofZ 0)
                (fun _ _ k => rd m3 k)
                (fun i j => if zero_mode g mpicoordx mpicoordy jslice n i j
                            then dofZ 2 else dofZ (-1))
                (fun _ _ => dofZ 0)
                (Pres4.m3temp t) i j Hi Hj Hk H3) as (E30 & E31 & E32 & E33).
  pose proof (slab_fill_rows (iblock g) jslice (kmax g) (dofZ 1) (dofZ 1)
                (fun i j k => (rd m4 k + rd bmati (mpicoordy * iblock g + i)
                               + rd bmatj (mpicoordx * jblock g + n * jslice + j))%dbl)
                (fun _ _ => dofZ 1) (fun _ _ => dofZ 1)
                (Pres4.m4temp t) i j Hi Hj Hk H4) as (E40 & E41 & E42 & E43).
  pose proof (slab_fill_rows (iblock g) jslice (kmax g) (dofZ 0) (dofZ (-1))
                (fun _ _ k => rd m5 k) (fun _ _ => dofZ 0) (fun _ _ => dofZ 0)
                (Pres4.m5temp t) i j Hi Hj Hk H5) as (E50 & E51 & E52 & E53).
  pose proof (slab_fill_rows (iblock g) jslice (kmax g) (dofZ 0) (dofZ 0)
                (fun _ _ k => rd m6 k) (fun _ _ => dofZ 0) (fun _ _ => dofZ 0)
                (Pres4.m6temp t) i j Hi Hj Hk H6) as (E60 & E61 & E62 & E63).
  pose proof (slab_fill_rows (iblock g) jslice (kmax g) (dofZ (-1)) (dofZ 0)
                (fun _ _ k => rd m7 k) (fun _ _ => dofZ 0) (fun _ _ => dofZ 0)
                (Pres4.m7temp t) i j Hi Hj Hk H7) as (E70 & E71 & E72 & E73).
  rewrite <- (solve_setup_m1 g mpicoordx mpicoordy p m1 m2 m3 m4 m5 m6 m7
               bmati bmatj jslice n t) in E10, E11, E12, E13.
  rewrite <- (solve_setup_m2 g mpicoordx mpicoordy p m1 m2 m3 m4 m5 m6 m7
               bmati bmatj jslice n t) in E20, E21, E22, E23.
  rewrite <- (solve_setup_m3 g mpicoordx mpicoordy p m1 m2 m3 m4 m5 m6 m7
               bmati bmatj jslice n t) in E30, E31, E32, E33.
  rewrite <- (solve_setup_m4 g mpicoordx mpicoordy p m1 m2 m3 m4 m5 m6 m7
               bmati bmatj jslice n t) in E40, E41, E42, E43.
  rewrite <- (solve_setup_m5 g mpicoordx mpicoordy p m1 m2 m3 m4 m5 m6 m7
               bmati bmatj jslice n t) in E50, E51, E52, E53.
  rewrite <- (solve_setup_m6 g mpicoordx mpicoordy p m1 m2 m3 m4 m5 m6 m7
               bmati bmatj jslice n t) in E60, E61, E62, E63.
  rewrite <- (solve_setup_m7 g mpicoordx mpicoordy p m1 m2 m3 m4 m5 m6 m7
               bmati bmatj jslice n t) in E70, E71, E72, E73.
  fold t' in E10, E11, E12, E13, E20, E21, E22, E23, E30, E31, E32, E33,
    E40, E41, E42, E43, E50, E51, E52, E53, E60, E61, E62, E63, E70, E71, E72, E73.
  unfold slab_index in *. unfold zero_mode in *.
  fold iindex jindex in E12, E13, E22, E23, E32, E33.
  unfold coefficients. subst row. cbv beta.
  rewrite E10, E11, E12, E13, E20, E21, E22, E23, E30, E31, E32, E33,
    E40, E41, E42, E43, E50, E51, E52, E53, E60, E61, E62, E63, E70, E71, E72, E73.
  split; [done |]. split; [done |]. split.
  - intros [-> ->]. done.
  - intros Hnz.
    destruct (Z.eqb_spec iindex 0) as [Hi0 | Hi0];
      destruct (Z.eqb_spec jindex 0) as [Hj0 | Hj0]; simpl; try done.
    exfalso. by apply Hnz.
Qed.

Lemma solve_setup_ghost_rows_witness :
  slab_rows (Sample.grid (D := float)) 1 (kmax (Sample.grid (D := float)) + 4)
    Sample.slab
  /\ coefficients
       (Pres4.solve_setup Sample.grid 0 0 (Sample.ramp 8)
          (Sample.ramp 2) (Sample.ramp 2) (Sample.ramp 2) (Sample.ramp 2)
          (Sample.ramp 2) (Sample.ramp 2) (Sample.ramp 2)
          [0; -1]%float [0; -1]%float 1 0 Sample.slab) 8
     = (0, (-1) / 3, 2, 1, 0, 0, 0)%float.
Proof.
  assert (Hrows : slab_rows (Sample.grid (D := float)) 1
                    (kmax (Sample.grid (D := float)) + 4) Sample.slab)
    by (unfold slab_rows; simpl; lia).
  split; [exact Hrows |].
  destruct (solve_setup_ghost_rows Sample.grid 0 0 (Sample.ramp 8)
              (Sample.ramp 2) (Sample.ramp 2) (Sample.ramp 2) (Sample.ramp 2)
              (Sample.ramp 2) (Sample.ramp 2) (Sample.ramp 2)
              [0; -1]%float [0; -1]%float 1 0 Sample.slab 0 0)
    as (_ & _ & Hpin & _); try (simpl; lia); [exact Hrows |].
  destruct Hpin as [Htop _]; [split; reflexivity |].
  exact Htop.
Defined.
